(** * MPESynthesiser: voice allocation and voice stealing

    A shallow embedding of [juce_MPESynthesiser.cpp]
    (modules/juce_audio_basics/mpe).  The synthesiser owns an ordered array
    of voices; note events coming from the MPE instrument are mapped onto
    those voices, and when every voice is busy a stealing heuristic picks
    the voice to re-use.

    Conventions of the embedding:
    - a [MPESynthesiserVoice*] that points into the [voices] array is the
      index of the voice in that array ([VoicePtr]); [nullptr] is [None];
    - the virtual member functions of a voice and the members of
      [MPENote] / [MPESynthesiserVoice] that the translation unit only
      calls are the fields of a class, [VoiceClass], so every result
      holds for any voice class;
    - [std::sort] is abstract too, constrained by the contract the C++
      standard gives it (a sorted permutation; nothing is promised about
      the order of equivalent elements);
    - calls that leave the synthesiser (virtual calls on a voice, calls on
      the instrument) are appended to a log kept next to the state. *)

From Stdlib Require Import ZArith List Bool Lia Permutation Sorted Arith.
Import ListNotations.
Local Open Scope Z_scope.
Set Warnings "-notation-for-abbreviation".

(** [MPENote::KeyState]. *)
Inductive KeyState : Type :=
| off
| keyDown
| sustained
| keyDownAndSustained.

Definition KeyState_eqb (a b : KeyState) : bool :=
  match a, b with
  | off, off | keyDown, keyDown | sustained, sustained
  | keyDownAndSustained, keyDownAndSustained => true
  | _, _ => false
  end.

Lemma KeyState_eqb_eq (a b : KeyState) : KeyState_eqb a b = true <-> a = b.
Proof. destruct a, b; simpl; split; congruence. Qed.

(** The pure virtual callbacks of [MPESynthesiserVoice]. *)
Inductive VoiceHook : Type :=
| NoteStarted
| NoteStopped (allowTailOff : bool)
| NotePressureChanged
| NotePitchbendChanged
| NoteTimbreChanged
| NoteKeyStateChanged.

(** A voice of the [voices] array, named by its position. *)
Notation VoicePtr := nat (only parsing).

(** Calls that leave the synthesiser. *)
Inductive Call : Type :=
| VoiceCall (voice : VoicePtr) (hook : VoiceHook)
| InstrumentReleaseAllNotes.

(** Which branch an iteration of [reduceNumVoices] took. *)
Inductive Removal : Type :=
| RemovedObject (voice : VoicePtr)
| RemovedOldest.

(** [lastNoteOnCounter] and [noteOnTime] are [uint32]: the post-increment
    in [startVoice] wraps around at 2^32. *)
Definition uint32_modulus : Z := 2 ^ 32.
Definition uint32 (z : Z) : Z := z mod uint32_modulus.

(** ** Generic list helpers *)

(** The elements of an array paired with their positions, from [i] on. *)
Fixpoint enumerateFrom {A : Type} (i : nat) (l : list A) : list (nat * A) :=
  match l with
  | [] => []
  | x :: rest => (i, x) :: enumerateFrom (S i) rest
  end.

Definition enumerate {A : Type} (l : list A) : list (nat * A) := enumerateFrom 0 l.

(** [array.getReference (i) = f (array[i])]; nothing happens out of range. *)
Fixpoint updateAt {A : Type} (i : nat) (f : A -> A) (l : list A) : list A :=
  match l, i with
  | [], _ => []
  | x :: rest, O => f x :: rest
  | x :: rest, S j => x :: updateAt j f rest
  end.

(** [OwnedArray::remove (i)]; nothing happens out of range. *)
Fixpoint removeAt {A : Type} (i : nat) (l : list A) : list A :=
  match l, i with
  | [], _ => []
  | _ :: rest, O => rest
  | x :: rest, S j => x :: removeAt j rest
  end.

(** Try [a]; when it yields nothing go on with [b] (consecutive search
    loops that each [return] on their first hit). *)
Definition orElse {A : Type} (a b : option A) : option A :=
  match a with
  | Some _ => a
  | None => b
  end.

(** ** The contract of [std::sort] *)

Definition StrictWeakOrdering {A : Type} (comp : A -> A -> bool) : Prop :=
  (forall a, comp a a = false)
  /\ (forall a b c, comp a b = true -> comp b c = true -> comp a c = true)
  /\ (forall a b c, comp a b = false -> comp b c = false -> comp a c = false).

Record StdSortContract {A : Type}
       (sort : (A -> A -> bool) -> list A -> list A) : Prop :=
  { sort_permutation : forall comp l, Permutation (sort comp l) l;
    sort_sorted : forall comp l,
        StrictWeakOrdering comp ->
        StronglySorted (fun a b => comp b a = false) (sort comp l) }.

(** [struct MPENote], over the type of its continuous values. *)
Record MPENote (MPEValue : Type) : Type := mkMPENote
  { noteID : Z;
    midiChannel : Z;
    initialNote : Z;
    noteOnVelocity : MPEValue;
    pitchbend : MPEValue;
    pressure : MPEValue;
    timbre : MPEValue;
    noteOffVelocity : MPEValue;
    keyState : KeyState }.

Arguments mkMPENote {MPEValue}.
Arguments noteID {MPEValue}.
Arguments midiChannel {MPEValue}.
Arguments initialNote {MPEValue}.
Arguments noteOnVelocity {MPEValue}.
Arguments pitchbend {MPEValue}.
Arguments pressure {MPEValue}.
Arguments timbre {MPEValue}.
Arguments noteOffVelocity {MPEValue}.
Arguments keyState {MPEValue}.

(** [class MPESynthesiserVoice]: the members the synthesiser touches, and
    [derived] for whatever state a concrete voice class adds. *)
Record MPESynthesiserVoice (MPEValue Derived : Type) : Type := mkVoice
  { currentlyPlayingNote : MPENote MPEValue;
    noteOnTime : Z;
    derived : Derived }.

Arguments mkVoice {MPEValue Derived}.
Arguments currentlyPlayingNote {MPEValue Derived}.
Arguments noteOnTime {MPEValue Derived}.
Arguments derived {MPEValue Derived}.

(** What the translation unit uses but does not define: [MPEValue] with
    its named constructor (only [from7BitInt (64)] occurs),
    [MPENote::isValid], the default-constructed note [MPENote()] (the [{}]
    in [reduceNumVoices]), the member functions of the voice, and the
    effect of each virtual callback on the voice.  A callback runs in the
    derived class: it reaches [currentlyPlayingNote] (protected) and its
    own members, but not [noteOnTime], which is private to the base. *)
Class VoiceClass : Type :=
  { MPEValue : Type;
    Derived : Type;
    from7BitInt : Z -> MPEValue;
    isValid : MPENote MPEValue -> bool;
    defaultNote : MPENote MPEValue;
    isActive : MPESynthesiserVoice MPEValue Derived -> bool;
    isPlayingButReleased : MPESynthesiserVoice MPEValue Derived -> bool;
    isCurrentlyPlayingNote :
      MPESynthesiserVoice MPEValue Derived -> MPENote MPEValue -> bool;
    voiceHook :
      VoiceHook -> MPESynthesiserVoice MPEValue Derived ->
      MPENote MPEValue * Derived }.

Notation Note := (MPENote MPEValue) (only parsing).
Notation Voice := (MPESynthesiserVoice MPEValue Derived) (only parsing).

(** An entry of [usableVoicesToStealArray]: the pointer and, since the
    search does not write to any voice, the voice it points to. *)
Notation VoiceRef := (VoicePtr * Voice)%type (only parsing).

(** The [std::sort] in use. *)
Class StdSort (A : Type) : Type :=
  std_sort : (A -> A -> bool) -> list A -> list A.

Section Synthesiser.

Context {VC : VoiceClass}.

Definition set_noteOffVelocity (x : MPEValue) (n : Note) : Note :=
  mkMPENote (noteID n) (midiChannel n) (initialNote n) (noteOnVelocity n)
            (pitchbend n) (pressure n) (timbre n) x (keyState n).

Definition set_keyState (k : KeyState) (n : Note) : Note :=
  mkMPENote (noteID n) (midiChannel n) (initialNote n) (noteOnVelocity n)
            (pitchbend n) (pressure n) (timbre n) (noteOffVelocity n) k.

Definition getCurrentlyPlayingNote (v : Voice) : Note :=
  currentlyPlayingNote v.

Definition set_currentlyPlayingNote (n : Note) (v : Voice) : Voice :=
  mkVoice n (noteOnTime v) (derived v).

Definition set_noteOnTime (t : Z) (v : Voice) : Voice :=
  mkVoice (currentlyPlayingNote v) t (derived v).

(** Calling the virtual callback [h] on [v]. *)
Definition runHook (h : VoiceHook) (v : Voice) : Voice :=
  let (n, d) := voiceHook h v in mkVoice n (noteOnTime v) d.

(** [class MPESynthesiser]. *)
Record MPESynthesiser : Type := mkSynth
  { voices : list Voice;
    lastNoteOnCounter : Z;
    shouldStealVoices : bool;
    callLog : list Call }.

Definition ptrOf (r : option VoiceRef) : option VoicePtr := option_map fst r.

Definition noteNumberOf (r : VoiceRef) : Z :=
  initialNote (getCurrentlyPlayingNote (snd r)).

Context {SORT : StdSort VoiceRef}.

(** ** startVoice / stopVoice (lines 52-67) *)

Definition startVoice (voice : VoicePtr) (noteToStart : Note)
           (s : MPESynthesiser) : MPESynthesiser :=
  let start v :=
    runHook NoteStarted
            (set_noteOnTime (lastNoteOnCounter s)
                            (set_currentlyPlayingNote noteToStart v)) in
  mkSynth (updateAt voice start (voices s))
          (uint32 (lastNoteOnCounter s + 1))
          (shouldStealVoices s)
          (callLog s ++ [VoiceCall voice NoteStarted]).

Definition stopVoice (voice : VoicePtr) (noteToStop : Note)
           (allowTailOff : bool) (s : MPESynthesiser) : MPESynthesiser :=
  let stop v :=
    runHook (NoteStopped allowTailOff) (set_currentlyPlayingNote noteToStop v) in
  mkSynth (updateAt voice stop (voices s))
          (lastNoteOnCounter s)
          (shouldStealVoices s)
          (callLog s ++ [VoiceCall voice (NoteStopped allowTailOff)]).

(** ** findVoiceToSteal (lines 185-270)

    The scratch array is cleared on entry, so nothing of an earlier call
    reaches this one. *)

(** [struct Sorter]. *)
Definition Sorter (a b : VoiceRef) : bool :=
  noteOnTime (snd a) <? noteOnTime (snd b).

(** The locals the first loop of [findVoiceToSteal] works on. *)
Record StealScan : Type := mkScan
  { usable : list VoiceRef;
    low : option VoiceRef;
    top : option VoiceRef }.

Definition lowAfter (low0 : option VoiceRef) (voice : VoiceRef) : option VoiceRef :=
  match low0 with
  | None => Some voice
  | Some l => if noteNumberOf voice <? noteNumberOf l then Some voice else low0
  end.

Definition topAfter (top0 : option VoiceRef) (voice : VoiceRef) : option VoiceRef :=
  match top0 with
  | None => Some voice
  | Some t => if noteNumberOf voice >? noteNumberOf t then Some voice else top0
  end.

(** One iteration of [for (auto* voice : voices)]. *)
Definition scanStep (st : StealScan) (voice : VoiceRef) : StealScan :=
  let usable' := std_sort Sorter (usable st ++ [voice]) in
  if negb (isPlayingButReleased (snd voice))
  then mkScan usable' (lowAfter (low st) voice) (topAfter (top st) voice)
  else mkScan usable' (low st) (top st).

Definition scanVoices (vs : list Voice) : StealScan :=
  fold_left scanStep (enumerate vs) (mkScan [] None None).

Definition ptr_eqb (a b : option VoicePtr) : bool :=
  match a, b with
  | Some x, Some y => Nat.eqb x y
  | None, None => true
  | _, _ => false
  end.

(** [voice != p]. *)
Definition isNot (p : option VoicePtr) (voice : VoiceRef) : bool :=
  negb (ptr_eqb (Some (fst voice)) p).

(** [low] and [top] as they stand after [if (top == low) top = nullptr]. *)
Definition protectedVoices (vs : list Voice)
  : option VoicePtr * option VoicePtr :=
  let st := scanVoices vs in
  let lowp := ptrOf (low st) in
  let topp := ptrOf (top st) in
  (lowp, if ptr_eqb topp lowp then None else topp).

Definition samePitch (noteToStealVoiceFor : Note) (voice : VoiceRef) : bool :=
  noteNumberOf voice =? initialNote noteToStealVoiceFor.

Definition keyNotDown (voice : VoiceRef) : bool :=
  negb (KeyState_eqb (keyState (getCurrentlyPlayingNote (snd voice))) keyDown)
  && negb (KeyState_eqb (keyState (getCurrentlyPlayingNote (snd voice)))
                        keyDownAndSustained).

Definition unprotected (lowp topp : option VoicePtr) (voice : VoiceRef) : bool :=
  isNot lowp voice && isNot topp voice.

Definition findVoiceToSteal (vs : list Voice)
           (noteToStealVoiceFor : Note) : option VoicePtr :=
  let usableVoicesToStealArray := usable (scanVoices vs) in
  let (lowp, topp) := protectedVoices vs in
  orElse
    (if isValid noteToStealVoiceFor
     then ptrOf (find (samePitch noteToStealVoiceFor) usableVoicesToStealArray)
     else None)
 (orElse
    (ptrOf (find (fun voice => unprotected lowp topp voice
                               && isPlayingButReleased (snd voice))
                 usableVoicesToStealArray))
 (orElse
    (ptrOf (find (fun voice => unprotected lowp topp voice && keyNotDown voice)
                 usableVoicesToStealArray))
 (orElse
    (ptrOf (find (unprotected lowp topp) usableVoicesToStealArray))
    (match topp with
     | Some _ => topp
     | None => lowp
     end)))).

(** *** Notions used to state what the search does *)

(** [a] was started no later than [b]. *)
Definition notYounger (a b : VoiceRef) : Prop :=
  noteOnTime (snd a) <= noteOnTime (snd b).

(** What the loop does to [low] and [top], whatever the sort. *)
Definition protectStep (lt : option VoiceRef * option VoiceRef) (voice : VoiceRef)
  : option VoiceRef * option VoiceRef :=
  if negb (isPlayingButReleased (snd voice))
  then (lowAfter (fst lt) voice, topAfter (snd lt) voice)
  else lt.

(** [low] is an unreleased voice of the lowest note, [top] one of the
    highest; both are missing exactly when every voice is released. *)
Definition Protects (seen : list VoiceRef) (lt : option VoiceRef * option VoiceRef)
  : Prop :=
  (forall l, fst lt = Some l ->
             In l seen /\ isPlayingButReleased (snd l) = false
             /\ forall e, In e seen -> isPlayingButReleased (snd e) = false ->
                          noteNumberOf l <= noteNumberOf e)
  /\ (forall t, snd lt = Some t ->
                In t seen /\ isPlayingButReleased (snd t) = false
                /\ forall e, In e seen -> isPlayingButReleased (snd e) = false ->
                             noteNumberOf e <= noteNumberOf t)
  /\ (fst lt = None ->
      forall e, In e seen -> isPlayingButReleased (snd e) = true)
  /\ (fst lt = None <-> snd lt = None).

(** ** findFreeVoice (lines 169-183) *)

Definition findFreeVoice (s : MPESynthesiser) (noteToFindVoiceFor : Note)
           (stealIfNoneAvailable : bool) : option VoicePtr :=
  match find (fun voice : VoiceRef => negb (isActive (snd voice)))
             (enumerate (voices s)) with
  | Some voice => Some (fst voice)
  | None =>
      if stealIfNoneAvailable
      then findVoiceToSteal (voices s) noteToFindVoiceFor
      else None
  end.

(** ** Note events (lines 70-132) *)

Definition noteAdded (newNote : Note) (s : MPESynthesiser) : MPESynthesiser :=
  match findFreeVoice s newNote (shouldStealVoices s) with
  | Some voice => startVoice voice newNote s
  | None => s
  end.

(** A run of note-starts: for every start the synthesiser it found, the
    note, the voice [findFreeVoice] gave it, and the synthesiser it
    left. *)
Record StartStep : Type := mkStep
  { before : MPESynthesiser;
    started : Note;
    obtained : option VoicePtr;
    after : MPESynthesiser }.

Fixpoint noteAddedRun (notes : list Note) (s : MPESynthesiser) : list StartStep :=
  match notes with
  | [] => []
  | newNote :: rest =>
      mkStep s newNote (findFreeVoice s newNote (shouldStealVoices s))
             (noteAdded newNote s)
      :: noteAddedRun rest (noteAdded newNote s)
  end.

(** The [noteOnTime] the voice obtained by a start carries after it. *)
Definition stampOf (st : StartStep) : option Z :=
  match obtained st with
  | Some voice => option_map noteOnTime (nth_error (voices (after st)) voice)
  | None => None
  end.

(** [voice] is the first voice of the pool that is not active. *)
Definition firstIdle (vs : list Voice) (voice : VoicePtr) : Prop :=
  (exists v, nth_error vs voice = Some v /\ isActive v = false)
  /\ forall j w, (j < voice)%nat -> nth_error vs j = Some w -> isActive w = true.

(** The loop shared by the four control-change handlers: the voices from
    position [i] on, and the calls made on them. *)
Fixpoint changeLoop (h : VoiceHook) (changedNote : Note) (i : nat)
         (vs : list Voice)
  : list Voice * list Call :=
  match vs with
  | [] => ([], [])
  | voice :: rest =>
      let (rest', calls) := changeLoop h changedNote (S i) rest in
      if isCurrentlyPlayingNote voice changedNote
      then (runHook h (set_currentlyPlayingNote changedNote voice) :: rest',
            VoiceCall i h :: calls)
      else (voice :: rest', calls)
  end.

Definition noteChanged (h : VoiceHook) (changedNote : Note)
           (s : MPESynthesiser) : MPESynthesiser :=
  let (vs, calls) := changeLoop h changedNote 0%nat (voices s) in
  mkSynth vs (lastNoteOnCounter s) (shouldStealVoices s) (callLog s ++ calls).

Definition notePressureChanged := noteChanged NotePressureChanged.
Definition notePitchbendChanged := noteChanged NotePitchbendChanged.
Definition noteTimbreChanged := noteChanged NoteTimbreChanged.
Definition noteKeyStateChanged := noteChanged NoteKeyStateChanged.

(** The four handlers with the callback each one makes. *)
Definition controlChangeHandlers
  : list (VoiceHook * (Note -> MPESynthesiser -> MPESynthesiser)) :=
  [ (NotePressureChanged, notePressureChanged);
    (NotePitchbendChanged, notePitchbendChanged);
    (NoteTimbreChanged, noteTimbreChanged);
    (NoteKeyStateChanged, noteKeyStateChanged) ].

(** ** turnOffAllVoices (lines 321-339)

    The call on the instrument is logged; what the instrument does with it
    is its own business and reaches the synthesiser, if at all, as further
    note events. *)

Definition switchedOff (v : Voice) : Voice :=
  set_currentlyPlayingNote
    (set_keyState off
       (set_noteOffVelocity (from7BitInt 64) (currentlyPlayingNote v))) v.

Fixpoint turnOffLoop (allowTailOff : bool) (i : nat)
         (vs : list Voice)
  : list Voice * list Call :=
  match vs with
  | [] => ([], [])
  | voice :: rest =>
      let (rest', calls) := turnOffLoop allowTailOff (S i) rest in
      (runHook (NoteStopped allowTailOff) (switchedOff voice) :: rest',
       VoiceCall i (NoteStopped allowTailOff) :: calls)
  end.

Definition turnOffAllVoices (allowTailOff : bool) (s : MPESynthesiser)
  : MPESynthesiser :=
  let (vs, calls) := turnOffLoop allowTailOff 0%nat (voices s) in
  mkSynth vs (lastNoteOnCounter s) (shouldStealVoices s)
          (callLog s ++ calls ++ [InstrumentReleaseAllNotes]).

(** Two notes name the same key on the same channel. *)
Definition sameIdentity (a b : Note) : Prop :=
  noteID a = noteID b /\ midiChannel a = midiChannel b
  /\ initialNote a = initialNote b.

(** The stop callback leaves the note of its voice alone or detaches it
    ([clearCurrentNote]), and a detached note has its key off. *)
Definition StopKeepsOrClears : Prop :=
  keyState defaultNote = off
  /\ forall allowTailOff v,
      fst (voiceHook (NoteStopped allowTailOff) v) = currentlyPlayingNote v
      \/ fst (voiceHook (NoteStopped allowTailOff) v) = defaultNote.

(** ** reduceNumVoices (lines 305-319) *)

Definition set_voices (vs : list Voice) (s : MPESynthesiser)
  : MPESynthesiser :=
  mkSynth vs (lastNoteOnCounter s) (shouldStealVoices s) (callLog s).

(** The [while] loop, with the branch taken by every iteration; [None]
    when [fuel] iterations were not enough to leave the loop. *)
Fixpoint reduceLoop (fuel : nat) (newNumVoices : Z) (s : MPESynthesiser)
  : option (MPESynthesiser * list Removal) :=
  if Z.of_nat (length (voices s)) >? newNumVoices
  then match fuel with
       | O => None
       | S fuel' =>
           match findFreeVoice s defaultNote true with
           | Some voice =>
               option_map (fun r => (fst r, RemovedObject voice :: snd r))
                          (reduceLoop fuel' newNumVoices
                                      (set_voices (removeAt voice (voices s)) s))
           | None =>
               option_map (fun r => (fst r, RemovedOldest :: snd r))
                          (reduceLoop fuel' newNumVoices
                                      (set_voices (removeAt 0 (voices s)) s))
           end
       end
  else Some (s, []).

(** Every iteration that finds a voice removes it, so as many iterations
    as there are voices are allowed for. *)
Definition reduceNumVoices (newNumVoices : Z) (s : MPESynthesiser)
  : option (MPESynthesiser * list Removal) :=
  reduceLoop (length (voices s)) newNumVoices s.

(** ** noteReleased (lines 134-145)

    The voices are visited from the last one to the first. *)
Fixpoint releaseLoop (finishedNote : Note) (i : nat) (s : MPESynthesiser)
  : MPESynthesiser :=
  match i with
  | O => s
  | S j =>
      releaseLoop finishedNote j
        (match nth_error (voices s) j with
         | Some voice =>
             if isCurrentlyPlayingNote voice finishedNote
             then stopVoice j finishedNote true s
             else s
         | None => s
         end)
  end.

Definition noteReleased (finishedNote : Note) (s : MPESynthesiser)
  : MPESynthesiser :=
  releaseLoop finishedNote (length (voices s)) s.

(** What a release does to one voice. *)
Definition afterRelease (finishedNote : Note) (v : Voice) : Voice :=
  if isCurrentlyPlayingNote v finishedNote
  then runHook (NoteStopped true) (mkVoice finishedNote (noteOnTime v) (derived v))
  else v.

(** A sequence of note-starts, one after the other. *)
Definition noteAddedAll (notes : list Note) (s : MPESynthesiser)
  : MPESynthesiser :=
  fold_left (fun s' newNote => noteAdded newNote s') notes s.

(** The voice [voice] was started at some point of the call log. *)
Definition wasStarted (s : MPESynthesiser) (voice : VoicePtr) : Prop :=
  In (VoiceCall voice NoteStarted) (callLog s).

(** The voices started so far carry stamps that lie between [c0] and the
    counter and differ from one another. *)
Definition StampsFresh (c0 : Z) (s : MPESynthesiser) : Prop :=
  c0 <= lastNoteOnCounter s
  /\ (forall i v, wasStarted s i -> nth_error (voices s) i = Some v ->
                  c0 <= noteOnTime v < lastNoteOnCounter s)
  /\ (forall i j vi vj, wasStarted s i -> wasStarted s j ->
                        nth_error (voices s) i = Some vi ->
                        nth_error (voices s) j = Some vj ->
                        noteOnTime vi = noteOnTime vj -> i = j).

(** The number of voices of the pool that are not active. *)
Definition idleCount (vs : list Voice) : nat :=
  length (filter (fun v => negb (isActive v)) vs).

End Synthesiser.

(** ** A voice class to run the definitions on *)

Module Model.

(** Insertion sort, one of the algorithms [std::sort] may be. *)
Fixpoint insert {A : Type} (comp : A -> A -> bool) (x : A) (l : list A) : list A :=
  match l with
  | [] => [x]
  | y :: rest => if comp x y then x :: l else y :: insert comp x rest
  end.

Definition insertionSort {A : Type} (comp : A -> A -> bool) (l : list A) : list A :=
  fold_right (insert comp) [] l.

(** Modelled from the spec: [MPENote::isValid] is defined outside the
    translation unit.  The spec speaks of "a specific incoming note
    identity" being given or not; a note is taken to name a key when its
    channel is one of the 16 MIDI channels and its number a 7-bit one. *)
Definition noteIsValid (n : MPENote Z) : bool :=
  (0 <? midiChannel n) && (midiChannel n <=? 16) && (initialNote n <? 128).

(** Modelled from the spec: the note [MPENote()] is built outside the
    translation unit; it stands for "no note" (no channel, key off). *)
Definition noNote : MPENote Z := mkMPENote 0 0 0 0 0 0 0 0 off.

(** Modelled from the spec: [MPESynthesiserVoice::isActive] is defined
    outside the translation unit; a voice is active "once started until
    fully silenced", that is, while a note is attached to it. *)
Definition voiceIsActive (v : MPESynthesiserVoice Z unit) : bool :=
  noteIsValid (currentlyPlayingNote v).

(** Modelled from the spec: [isPlayingButReleased] is defined outside
    the translation unit; a released voice is one with "key up, no
    sustain" whose tail may still be sounding. *)
Definition voiceIsPlayingButReleased (v : MPESynthesiserVoice Z unit) : bool :=
  voiceIsActive v && KeyState_eqb (keyState (currentlyPlayingNote v)) off.

(** Modelled from the spec: [isCurrentlyPlayingNote] is defined outside
    the translation unit; a voice matches a note when it is sounding
    and its assigned note has the identity of that note. *)
Definition voiceIsCurrentlyPlayingNote (v : MPESynthesiserVoice Z unit)
           (n : MPENote Z) : bool :=
  voiceIsActive v && (noteID (currentlyPlayingNote v) =? noteID n).

(** Modelled from the spec: the callbacks of a concrete voice are not
    part of the translation unit.  This voice fades out: told to stop
    without a tail it detaches its note at once; allowed a tail it keeps
    the note, since after a stop the "tail may still be sounding" and a
    voice is active "until fully silenced".  The other callbacks only
    touch the sound. *)
Definition fadingHook (h : VoiceHook) (v : MPESynthesiserVoice Z unit)
  : MPENote Z * unit :=
  match h with
  | NoteStopped false => (noNote, derived v)
  | _ => (currentlyPlayingNote v, derived v)
  end.

Definition fadingVoice : VoiceClass :=
  {| MPEValue := Z;
     Derived := unit;
     from7BitInt := fun z => z;
     isValid := noteIsValid;
     defaultNote := noNote;
     isActive := voiceIsActive;
     isPlayingButReleased := voiceIsPlayingButReleased;
     isCurrentlyPlayingNote := voiceIsCurrentlyPlayingNote;
     voiceHook := fadingHook |}.

Definition sorter : StdSort (VoicePtr * MPESynthesiserVoice Z unit) :=
  @insertionSort _.

(** Another sort: the same insertions, made from the other end of the
    array, so that voices with equal keys may come out in another
    order. *)
Definition backwardSort {A : Type} (comp : A -> A -> bool) (l : list A) : list A :=
  insertionSort comp (rev l).

Definition backwardSorter : StdSort (VoicePtr * MPESynthesiserVoice Z unit) :=
  @backwardSort _.

(** A note on channel 1 in the given key state. *)
Definition note (number : Z) (k : KeyState) : MPENote Z :=
  mkMPENote (128 + number) 1 number 100 0 0 0 0 k.

(** A voice playing key [number] since [time]. *)
Definition playing (number : Z) (k : KeyState) (time : Z)
  : MPESynthesiserVoice Z unit :=
  mkVoice (note number k) time tt.

Definition idle : MPESynthesiserVoice Z unit := mkVoice noNote 0 tt.

(** Three held keys: 40, 60 and 80, started in that order. *)
Definition chord : list (MPESynthesiserVoice Z unit) :=
  [playing 40 keyDown 1; playing 60 keyDown 2; playing 80 keyDown 3].

(** Two held keys. *)
Definition duo : list (MPESynthesiserVoice Z unit) :=
  [playing 40 keyDown 1; playing 80 keyDown 2].

(** Key 60 twice, the voice at index 1 being the older, and a released 61
    that is older than both. *)
Definition doubled : list (MPESynthesiserVoice Z unit) :=
  [playing 60 keyDown 5; playing 60 keyDown 2; playing 61 off 1].

(** Four held notes, the one on 60 by the pedal only. *)
Definition pedalled : list (MPESynthesiserVoice Z unit) :=
  [playing 40 keyDown 1; playing 60 sustained 2; playing 80 keyDown 3;
   playing 70 keyDown 0].

Definition synth (vs : list (MPESynthesiserVoice Z unit)) (counter : Z)
           (steal : bool) : @MPESynthesiser fadingVoice :=
  @mkSynth fadingVoice vs counter steal [].

End Model.

(** * Properties *)

(** ** Lists, searches and sorting *)

Lemma enumerateFrom_In {A : Type} (l : list A) (k i : nat) (v : A) :
  In (i, v) (enumerateFrom k l) <-> (k <= i)%nat /\ nth_error l (i - k) = Some v.
Proof.
  revert k. induction l as [|x rest IH]; intros k; simpl.
  - split; [tauto|]. intros [_ H]. destruct (i - k)%nat; discriminate.
  - rewrite IH. split.
    + intros [H | [Hle Hnth]].
      * inversion H; subst. rewrite Nat.sub_diag. split; [lia | reflexivity].
      * split; [lia|]. replace (i - k)%nat with (S (i - S k)) by lia. exact Hnth.
    + intros [Hle Hnth]. destruct (Nat.eq_dec k i) as [-> | Hne].
      * rewrite Nat.sub_diag in Hnth. simpl in Hnth. left. congruence.
      * right. split; [lia|].
        replace (i - k)%nat with (S (i - S k)) in Hnth by lia. exact Hnth.
Qed.

Lemma enumerate_In {A : Type} (l : list A) (i : nat) (v : A) :
  In (i, v) (enumerate l) <-> nth_error l i = Some v.
Proof.
  unfold enumerate. rewrite enumerateFrom_In, Nat.sub_0_r.
  split; [tauto | intros H; split; [lia | exact H]].
Qed.

Lemma enumerate_In_bound {A : Type} (l : list A) (r : nat * A) :
  In r (enumerate l) -> (fst r < length l)%nat.
Proof.
  destruct r as [i v]. rewrite enumerate_In. intros H.
  apply nth_error_Some. simpl. congruence.
Qed.

Lemma enumerate_fst_inj {A : Type} (l : list A) (a b : nat * A) :
  In a (enumerate l) -> In b (enumerate l) -> fst a = fst b -> a = b.
Proof.
  destruct a as [i v], b as [j w]. rewrite !enumerate_In. simpl.
  intros Ha Hb <-. congruence.
Qed.

Lemma enumerateFrom_snd {A : Type} (l : list A) (k : nat) :
  map snd (enumerateFrom k l) = l.
Proof. revert k. induction l; intros k; simpl; [reflexivity | now rewrite IHl]. Qed.

Lemma find_not_None {A : Type} (P : A -> bool) (l : list A) (x : A) :
  In x l -> P x = true -> find P l <> None.
Proof.
  intros Hin HP Hnone. pose proof (find_none P l Hnone x Hin). congruence.
Qed.

Lemma find_all_false {A : Type} (P : A -> bool) (l : list A) :
  (forall x, In x l -> P x = false) -> find P l = None.
Proof.
  induction l as [|a rest IH]; simpl; intros H; [reflexivity|].
  rewrite (H a) by now left. apply IH. intros x Hx. apply H. now right.
Qed.

(** Positions in an array whose elements differ under [f] are told apart
    by [f]. *)
Lemma enumerate_key_inj {A B : Type} (f : A -> B) (l : list A) (a b : nat * A) :
  NoDup (map f l) -> In a (enumerate l) -> In b (enumerate l) ->
  f (snd a) = f (snd b) -> a = b.
Proof.
  intros Hnd Ha Hb Hf. apply (enumerate_fst_inj l); try assumption.
  destruct a as [i v], b as [j w]. simpl in *.
  apply enumerate_In in Ha, Hb.
  rewrite NoDup_nth_error in Hnd. apply Hnd.
  - rewrite length_map. apply nth_error_Some. congruence.
  - rewrite !nth_error_map, Ha, Hb. simpl. congruence.
Qed.

(** In a sorted array the first hit of a search is a least hit. *)
Lemma find_sorted_least {A : Type} (R : A -> A -> Prop) (P : A -> bool)
      (l : list A) (x : A) :
  StronglySorted R l -> find P l = Some x ->
  forall y, In y l -> P y = true -> y = x \/ R x y.
Proof.
  induction 1 as [|a rest Hs IH Hall]; simpl; [discriminate|].
  destruct (P a) eqn:Pa.
  - intros [= ->] y [-> | Hy] _; [now left | right].
    rewrite Forall_forall in Hall. now apply Hall.
  - intros Hf y [-> | Hy] Py; [congruence | now apply IH].
Qed.

(** Two sorted arrangements of the same elements coincide when no two
    elements share a key. *)
Lemma sorted_permutation_unique {A : Type} (key : A -> Z) (l1 l2 : list A) :
  Permutation l1 l2 ->
  NoDup (map key l1) ->
  StronglySorted (fun a b => key a <= key b) l1 ->
  StronglySorted (fun a b => key a <= key b) l2 ->
  l1 = l2.
Proof.
  revert l2. induction l1 as [|a r1 IH]; intros l2 Hp Hnd Hs1 Hs2.
  - apply Permutation_nil in Hp. now subst.
  - destruct l2 as [|b r2].
    { apply Permutation_sym, Permutation_nil in Hp. discriminate. }
    inversion Hs1 as [|? ? Hs1' Hall1]; subst.
    inversion Hs2 as [|? ? Hs2' Hall2]; subst.
    rewrite Forall_forall in Hall1, Hall2.
    simpl in Hnd. inversion Hnd as [|? ? Hnotin Hnd']; subst.
    assert (Hab : a = b).
    { assert (Ha : In a (b :: r2)) by (eapply Permutation_in; [exact Hp | now left]).
      assert (Hb : In b (a :: r1))
        by (eapply Permutation_in; [apply Permutation_sym; exact Hp | now left]).
      destruct Ha as [Ha | Ha]; [now symmetry|].
      destruct Hb as [Hb | Hb]; [exact Hb|].
      exfalso. apply Hnotin.
      pose proof (Hall1 _ Hb). pose proof (Hall2 _ Ha).
      replace (key a) with (key b) by lia. now apply in_map. }
    subst b. f_equal. apply IH; auto.
    now apply Permutation_cons_inv in Hp.
Qed.

Lemma StronglySorted_weaken {A : Type} (R R' : A -> A -> Prop) (l : list A) :
  (forall a b, R a b -> R' a b) -> StronglySorted R l -> StronglySorted R' l.
Proof.
  intros Himp. induction 1 as [|a rest Hs IH Hall]; constructor; [exact IH|].
  eapply Forall_impl; [|exact Hall]. intros b. apply Himp.
Qed.

Lemma orElse_Some {A : Type} (a b : option A) (x : A) :
  orElse a b = Some x -> a = Some x \/ (a = None /\ b = Some x).
Proof. destruct a; simpl; auto. Qed.

Lemma orElse_not_None {A : Type} (a b : option A) :
  a <> None \/ b <> None -> orElse a b <> None.
Proof. destruct a; simpl; [congruence | tauto]. Qed.

Lemma removeAt_length {A : Type} (l : list A) (i : nat) :
  (i < length l)%nat -> length (removeAt i l) = pred (length l).
Proof.
  revert i. induction l as [|x rest IH]; intros [|i]; simpl; try lia.
  intros H. rewrite IH by lia. destruct rest; simpl in *; lia.
Qed.

Lemma updateAt_nth_same {A : Type} (f : A -> A) (l : list A) (i : nat) (x : A) :
  nth_error l i = Some x -> nth_error (updateAt i f l) i = Some (f x).
Proof.
  revert i. induction l as [|y rest IH]; intros [|i]; simpl; try discriminate.
  - now intros [= ->].
  - apply IH.
Qed.

(** A search by a property of the elements, through an array paired with
    its positions, stops at the first position that has the property. *)
Lemma find_enumerateFrom {A : Type} (P : A -> bool) (l : list A) (k : nat) :
  match find (fun r => P (snd r)) (enumerateFrom k l) with
  | Some r =>
      (k <= fst r)%nat /\ nth_error l (fst r - k) = Some (snd r)
      /\ P (snd r) = true
      /\ forall j y, (j < fst r - k)%nat -> nth_error l j = Some y -> P y = false
  | None => forall x, In x l -> P x = false
  end.
Proof.
  revert k. induction l as [|a rest IH]; intros k; simpl.
  - intros x [].
  - destruct (P a) eqn:Pa; simpl.
    + rewrite Nat.sub_diag. repeat split; auto. intros j y Hj. lia.
    + specialize (IH (S k)).
      destruct (find _ (enumerateFrom (S k) rest)) as [[i x]|]; simpl in *.
      * destruct IH as (Hle & Hnth & Hx & Hbefore).
        split; [lia|]. replace (i - k)%nat with (S (i - S k)) by lia.
        split; [exact Hnth|]. split; [exact Hx|].
        intros [|j] y Hj Hy; simpl in Hy.
        -- congruence.
        -- apply (Hbefore j); [lia | exact Hy].
      * intros x [<- | Hx]; [exact Pa | now apply IH].
Qed.

(** Insertion sort meets the contract of [std::sort]. *)
Lemma insert_permutation {A : Type} (comp : A -> A -> bool) (x : A) (l : list A) :
  Permutation (Model.insert comp x l) (x :: l).
Proof.
  induction l as [|y rest IH]; simpl; [reflexivity|].
  destruct (comp x y); [reflexivity|].
  rewrite IH. apply perm_swap.
Qed.

Lemma insert_sorted {A : Type} (comp : A -> A -> bool) (x : A) (l : list A) :
  StrictWeakOrdering comp ->
  StronglySorted (fun a b => comp b a = false) l ->
  StronglySorted (fun a b => comp b a = false) (Model.insert comp x l).
Proof.
  intros (Hirr & Htrans & Hneg). induction 1 as [|y rest Hs IH Hall]; simpl.
  - repeat constructor.
  - destruct (comp x y) eqn:Hxy.
    + assert (Hyx : comp y x = false).
      { destruct (comp y x) eqn:E; [|reflexivity].
        rewrite <- (Hirr x). symmetry. now apply Htrans with y. }
      constructor; [constructor; assumption|].
      constructor; [exact Hyx|].
      rewrite Forall_forall in Hall |- *. intros z Hz.
      apply Hneg with y; [now apply Hall | exact Hyx].
    + constructor; [exact IH|].
      rewrite Forall_forall in Hall |- *. intros z Hz.
      eapply Permutation_in in Hz; [|apply insert_permutation].
      destruct Hz as [<- | Hz]; [exact Hxy | now apply Hall].
Qed.

Lemma backwardSort_contract {A : Type} : StdSortContract (@Model.backwardSort A).
Proof.
  split; unfold Model.backwardSort.
  - intros comp l. apply Permutation_trans with (rev l);
      [|apply Permutation_sym, Permutation_rev].
    induction (rev l) as [|x rest IH]; simpl; [reflexivity|].
    rewrite insert_permutation. now constructor.
  - intros comp l Hswo. induction (rev l) as [|x rest IH]; simpl.
    + constructor.
    + now apply insert_sorted.
Qed.

Lemma insertionSort_contract {A : Type} : StdSortContract (@Model.insertionSort A).
Proof.
  split.
  - intros comp l. induction l as [|x rest IH]; simpl; [reflexivity|].
    rewrite insert_permutation. now constructor.
  - intros comp l Hswo. induction l as [|x rest IH]; simpl.
    + constructor.
    + now apply insert_sorted.
Qed.

(** ** The first loop of findVoiceToSteal *)

Section Scan.

Context {VC : VoiceClass}.

Lemma Sorter_strict_weak : StrictWeakOrdering Sorter.
Proof.
  unfold Sorter. repeat split; intros.
  - apply Z.ltb_irrefl.
  - rewrite Z.ltb_lt in *. lia.
  - rewrite Z.ltb_ge in *. lia.
Qed.

Lemma scan_protectStep {SORT : StdSort VoiceRef} (es : list VoiceRef) (st : StealScan) :
  (low (fold_left scanStep es st), top (fold_left scanStep es st))
  = fold_left protectStep es (low st, top st).
Proof.
  revert st. induction es as [|e rest IH]; intros st; simpl; [reflexivity|].
  rewrite IH. f_equal. unfold scanStep, protectStep.
  destruct (negb (isPlayingButReleased (snd e))); reflexivity.
Qed.

Lemma Protects_step (seen : list VoiceRef) lt (e : VoiceRef) :
  Protects seen lt -> Protects (seen ++ [e]) (protectStep lt e).
Proof.
  intros (Hlow & Htop & Hnone & Hboth). destruct lt as [l0 t0]. simpl in *.
  unfold protectStep. destruct (isPlayingButReleased (snd e)) eqn:Hrel; simpl.
  - refine (conj _ (conj _ (conj _ Hboth))).
    + intros l Hl. destruct (Hlow l Hl) as (Hin & Hun & Hmin).
      refine (conj _ (conj Hun _)); [apply in_or_app; now left|].
      intros x Hx Hxu. apply in_app_or in Hx. destruct Hx as [Hx | [<- | []]].
      * now apply Hmin.
      * congruence.
    + intros t Ht. destruct (Htop t Ht) as (Hin & Hun & Hmax).
      refine (conj _ (conj Hun _)); [apply in_or_app; now left|].
      intros x Hx Hxu. apply in_app_or in Hx. destruct Hx as [Hx | [<- | []]].
      * now apply Hmax.
      * congruence.
    + intros Hl x Hx. apply in_app_or in Hx. destruct Hx as [Hx | [<- | []]].
      * now apply Hnone.
      * exact Hrel.
  - refine (conj _ (conj _ (conj _ (conj _ _)))).
    + intros l Hl. unfold lowAfter in Hl. destruct l0 as [l0|].
      * destruct (Hlow l0 eq_refl) as (Hin & Hun & Hmin).
        destruct (noteNumberOf e <? noteNumberOf l0) eqn:Hlt; inversion Hl; subst.
        -- rewrite Z.ltb_lt in Hlt.
           refine (conj _ (conj Hrel _)); [apply in_or_app; right; now left|].
           intros x Hx Hxu. apply in_app_or in Hx. destruct Hx as [Hx | [<- | []]].
           ++ pose proof (Hmin x Hx Hxu). lia.
           ++ lia.
        -- rewrite Z.ltb_ge in Hlt.
           refine (conj _ (conj Hun _)); [apply in_or_app; now left|].
           intros x Hx Hxu. apply in_app_or in Hx. destruct Hx as [Hx | [<- | []]].
           ++ now apply Hmin.
           ++ exact Hlt.
      * inversion Hl; subst.
        refine (conj _ (conj Hrel _)); [apply in_or_app; right; now left|].
        intros x Hx Hxu. apply in_app_or in Hx. destruct Hx as [Hx | [<- | []]].
        -- rewrite (Hnone eq_refl x Hx) in Hxu. discriminate.
        -- lia.
    + intros t Ht. unfold topAfter in Ht. destruct t0 as [t0|].
      * destruct (Htop t0 eq_refl) as (Hin & Hun & Hmax).
        destruct (noteNumberOf e >? noteNumberOf t0) eqn:Hgt; inversion Ht; subst.
        -- rewrite Z.gtb_ltb, Z.ltb_lt in Hgt.
           refine (conj _ (conj Hrel _)); [apply in_or_app; right; now left|].
           intros x Hx Hxu. apply in_app_or in Hx. destruct Hx as [Hx | [<- | []]].
           ++ pose proof (Hmax x Hx Hxu). lia.
           ++ lia.
        -- rewrite Z.gtb_ltb, Z.ltb_ge in Hgt.
           refine (conj _ (conj Hun _)); [apply in_or_app; now left|].
           intros x Hx Hxu. apply in_app_or in Hx. destruct Hx as [Hx | [<- | []]].
           ++ now apply Hmax.
           ++ exact Hgt.
      * inversion Ht; subst.
        refine (conj _ (conj Hrel _)); [apply in_or_app; right; now left|].
        intros x Hx Hxu. apply in_app_or in Hx. destruct Hx as [Hx | [<- | []]].
        -- assert (Hl0 : l0 = None) by now apply Hboth.
           rewrite (Hnone Hl0 x Hx) in Hxu. discriminate.
        -- lia.
    + unfold lowAfter. destruct l0 as [l0|]; [|discriminate].
      destruct (noteNumberOf e <? noteNumberOf l0); discriminate.
    + unfold lowAfter. destruct l0 as [l0|]; [|discriminate].
      destruct (noteNumberOf e <? noteNumberOf l0); discriminate.
    + unfold topAfter. destruct t0 as [t0|]; [|discriminate].
      destruct (noteNumberOf e >? noteNumberOf t0); discriminate.
Qed.

Lemma Protects_fold (es seen : list VoiceRef) lt :
  Protects seen lt -> Protects (seen ++ es) (fold_left protectStep es lt).
Proof.
  revert seen lt. induction es as [|e rest IH]; intros seen lt H; simpl.
  - now rewrite app_nil_r.
  - replace (seen ++ e :: rest) with ((seen ++ [e]) ++ rest)
      by (rewrite <- app_assoc; reflexivity).
    apply IH. now apply Protects_step.
Qed.

Lemma Protects_scan {SORT : StdSort VoiceRef} (vs : list Voice) :
  Protects (enumerate vs) (low (scanVoices vs), top (scanVoices vs)).
Proof.
  unfold scanVoices. rewrite scan_protectStep.
  apply (Protects_fold (enumerate vs) [] (None, None)).
  refine (conj _ (conj _ (conj _ (conj _ _)))); simpl;
    try discriminate; intros; try contradiction; reflexivity.
Qed.

Context {SORT : StdSort VoiceRef}.
Hypothesis std_sort_ok : StdSortContract std_sort.

Lemma scan_usable_permutation (es : list VoiceRef) (st : StealScan) :
  Permutation (usable (fold_left scanStep es st)) (usable st ++ es).
Proof.
  revert st. induction es as [|e rest IH]; intros st; simpl.
  - now rewrite app_nil_r.
  - rewrite IH.
    replace (usable st ++ e :: rest) with ((usable st ++ [e]) ++ rest)
      by (rewrite <- app_assoc; reflexivity).
    apply Permutation_app_tail.
    unfold scanStep.
    destruct (negb (isPlayingButReleased (snd e))); simpl;
      apply (sort_permutation _ std_sort_ok).
Qed.

Lemma scan_usable_sorted (es : list VoiceRef) (st : StealScan) :
  StronglySorted notYounger (usable st) ->
  StronglySorted notYounger (usable (fold_left scanStep es st)).
Proof.
  revert st. induction es as [|e rest IH]; intros st Hs; simpl; [exact Hs|].
  apply IH. unfold scanStep.
  assert (H : StronglySorted notYounger (std_sort Sorter (usable st ++ [e]))).
  { eapply StronglySorted_weaken;
      [|apply (sort_sorted _ std_sort_ok), Sorter_strict_weak].
    intros a b Hb. unfold Sorter in Hb. unfold notYounger.
    now rewrite Z.ltb_ge in Hb. }
  destruct (negb (isPlayingButReleased (snd e))); exact H.
Qed.

(** The scratch array ends up holding every voice, oldest first. *)
Lemma usable_permutation (vs : list Voice) :
  Permutation (usable (scanVoices vs)) (enumerate vs).
Proof. apply (scan_usable_permutation (enumerate vs) (mkScan [] None None)). Qed.

Lemma usable_sorted (vs : list Voice) :
  StronglySorted notYounger (usable (scanVoices vs)).
Proof. apply scan_usable_sorted. constructor. Qed.

Lemma usable_In (vs : list Voice) (r : VoiceRef) :
  In r (usable (scanVoices vs)) <-> In r (enumerate vs).
Proof.
  split; apply Permutation_in;
    [apply usable_permutation | apply Permutation_sym, usable_permutation].
Qed.

End Scan.

(** ** findVoiceToSteal *)

Section Stealing.

Context {VC : VoiceClass} {SORT : StdSort VoiceRef}.
Hypothesis std_sort_ok : StdSortContract std_sort.

Lemma ptr_eqb_eq (a b : option VoicePtr) : ptr_eqb a b = true <-> a = b.
Proof.
  destruct a as [x|], b as [y|]; simpl; try (split; congruence).
  rewrite Nat.eqb_eq. split; congruence.
Qed.

Lemma isNot_true (p : option VoicePtr) (r : VoiceRef) :
  isNot p r = true <-> p <> Some (fst r).
Proof.
  unfold isNot. rewrite negb_true_iff, <- not_true_iff_false, ptr_eqb_eq.
  split; congruence.
Qed.

Lemma protectedVoices_inv (vs : list Voice) (lowp topp : option VoicePtr) :
  protectedVoices vs = (lowp, topp) ->
  lowp = ptrOf (low (scanVoices vs))
  /\ (topp = None \/ (topp = ptrOf (top (scanVoices vs)) /\ topp <> lowp)).
Proof.
  unfold protectedVoices. intros [= <- <-]. split; [reflexivity|].
  destruct (ptr_eqb _ _) eqn:E; [now left | right].
  split; [reflexivity|]. rewrite <- ptr_eqb_eq. congruence.
Qed.

(** A protected pointer names a voice of the pool. *)
Lemma low_in_pool (vs : list Voice) (p : VoicePtr) :
  ptrOf (low (scanVoices vs)) = Some p -> (p < length vs)%nat.
Proof.
  destruct (Protects_scan vs) as (Hlow & _).
  destruct (low (scanVoices vs)) as [l|]; simpl; [|discriminate].
  intros [= <-]. destruct (Hlow l eq_refl) as (Hin & _).
  now apply enumerate_In_bound.
Qed.

Lemma top_in_pool (vs : list Voice) (p : VoicePtr) :
  ptrOf (top (scanVoices vs)) = Some p -> (p < length vs)%nat.
Proof.
  destruct (Protects_scan vs) as (_ & Htop & _).
  destruct (top (scanVoices vs)) as [t|]; simpl; [|discriminate].
  intros [= <-]. destruct (Htop t eq_refl) as (Hin & _).
  now apply enumerate_In_bound.
Qed.

Lemma find_usable_in_pool (P : VoiceRef -> bool) (vs : list Voice) (p : VoicePtr) :
  ptrOf (find P (usable (scanVoices vs))) = Some p ->
  exists v, nth_error vs p = Some v /\ P (p, v) = true.
Proof.
  destruct (find P _) as [[i v]|] eqn:Hf; simpl; [|discriminate].
  intros [= <-]. apply find_some in Hf. destruct Hf as [Hin HP].
  apply usable_In in Hin; [|exact std_sort_ok].
  exists v. split; [now apply enumerate_In | exact HP].
Qed.

(** The same-pitch search finds nothing when no note is given or no voice
    sounds the pitch of the note. *)
Lemma same_pitch_search_fails (vs : list Voice) (n : Note) :
  (isValid n = false
   \/ forall v, In v vs -> initialNote (getCurrentlyPlayingNote v) <> initialNote n) ->
  (if isValid n
   then ptrOf (find (samePitch n) (usable (scanVoices vs)))
   else None) = None.
Proof.
  intros Hpitch. destruct (isValid n) eqn:Hv; [|reflexivity].
  destruct Hpitch as [Hpitch | Hpitch]; [discriminate|].
  rewrite find_all_false; [reflexivity|].
  intros [i v] Hr. apply usable_In in Hr; [|exact std_sort_ok].
  apply enumerate_In, nth_error_In in Hr.
  unfold samePitch, noteNumberOf. simpl. apply Z.eqb_neq. now apply Hpitch.
Qed.

(** Whatever [findVoiceToSteal] returns is a voice of the pool. *)
Lemma findVoiceToSteal_in_pool (vs : list Voice) (n : Note) (p : VoicePtr) :
  findVoiceToSteal vs n = Some p -> (p < length vs)%nat.
Proof.
  unfold findVoiceToSteal.
  destruct (protectedVoices vs) as [lowp topp] eqn:Hp.
  apply protectedVoices_inv in Hp. destruct Hp as [Hl Ht].
  assert (Hfind : forall P, ptrOf (find P (usable (scanVoices vs))) = Some p ->
                            (p < length vs)%nat).
  { intros P H. apply find_usable_in_pool in H. destruct H as (v & Hv & _).
    apply nth_error_Some. congruence. }
  intros H.
  apply orElse_Some in H. destruct H as [H | [_ H]].
  { destruct (isValid n); [now apply Hfind in H | discriminate]. }
  apply orElse_Some in H. destruct H as [H | [_ H]]; [now apply Hfind in H|].
  apply orElse_Some in H. destruct H as [H | [_ H]]; [now apply Hfind in H|].
  apply orElse_Some in H. destruct H as [H | [_ H]]; [now apply Hfind in H|].
  destruct topp as [t|].
  - destruct Ht as [Ht | [Ht _]]; [discriminate|].
    apply top_in_pool. congruence.
  - apply low_in_pool. congruence.
Qed.

Lemma findVoiceToSteal_not_None (vs : list Voice) (n : Note) :
  vs <> [] -> findVoiceToSteal vs n <> None.
Proof.
  intros Hne. unfold findVoiceToSteal.
  destruct (protectedVoices vs) as [lowp topp] eqn:Hp.
  apply protectedVoices_inv in Hp. destruct Hp as [Hl Ht].
  apply orElse_not_None. right.
  destruct lowp as [l|].
  - (* a protected voice exists: the last resort cannot fail *)
    do 3 (apply orElse_not_None; right).
    destruct topp; discriminate.
  - (* nothing is protected: every voice is released *)
    apply orElse_not_None. left.
    destruct (Protects_scan vs) as (_ & _ & Hnone & Hboth).
    simpl in Hnone, Hboth.
    assert (Hlow : low (scanVoices vs) = None)
      by (destruct (low (scanVoices vs)); [discriminate | reflexivity]).
    assert (Htop : topp = None).
    { destruct Ht as [Ht | [Ht _]]; [exact Ht|].
      rewrite Ht. apply Hboth in Hlow. now rewrite Hlow. }
    subst topp.
    destruct vs as [|v rest]; [contradiction|].
    assert (Hin : In (0%nat, v) (enumerate (v :: rest))) by now left.
    intros Hfind.
    destruct (find _ _) eqn:Hf; [discriminate|].
    pose proof (find_none _ _ Hf (0%nat, v)) as Hbad.
    rewrite usable_In in Hbad by exact std_sort_ok.
    specialize (Hbad Hin). pose proof (Hnone Hlow _ Hin) as Hrel.
    simpl in Hbad, Hrel. rewrite Hrel in Hbad. discriminate.
Qed.

(** In a pool that holds at least one voice the stealing heuristic
    always names a voice of the pool. *)
Lemma findVoiceToSteal_total (vs : list Voice) (n : Note) :
  vs <> [] ->
  exists p, findVoiceToSteal vs n = Some p /\ (p < length vs)%nat.
Proof.
  intros Hne. destruct (findVoiceToSteal vs n) as [p|] eqn:H.
  - exists p. split; [reflexivity | now apply findVoiceToSteal_in_pool in H].
  - now apply findVoiceToSteal_not_None in H.
Qed.

(** C2: when the incoming note is valid and some voice of the pool
    already sounds the same [initialNote], [findVoiceToSteal] returns a
    voice of that pitch whose [noteOnTime] is the lowest among the
    voices of that pitch.  Nothing is assumed about which voices are
    released, held or protected: the same-pitch search comes before
    every other rule. *)
Theorem same_pitch_oldest_first (vs : list Voice) (n : Note) :
  isValid n = true ->
  (exists i v, nth_error vs i = Some v
               /\ initialNote (getCurrentlyPlayingNote v) = initialNote n) ->
  exists p w,
    findVoiceToSteal vs n = Some p
    /\ nth_error vs p = Some w
    /\ initialNote (getCurrentlyPlayingNote w) = initialNote n
    /\ forall j u, nth_error vs j = Some u ->
                   initialNote (getCurrentlyPlayingNote u) = initialNote n ->
                   noteOnTime w <= noteOnTime u.
Proof.
  intros Hvalid (i & v & Hv & Hpitch).
  assert (Hin : In (i, v) (usable (scanVoices vs))).
  { apply usable_In; [exact std_sort_ok | now apply enumerate_In]. }
  assert (Hsame : samePitch n (i, v) = true).
  { unfold samePitch, noteNumberOf. simpl. now apply Z.eqb_eq. }
  destruct (find (samePitch n) (usable (scanVoices vs))) as [[p w]|] eqn:Hf.
  2:{ exfalso. now apply (find_not_None _ _ _ Hin Hsame). }
  exists p, w. destruct (find_some _ _ Hf) as [Hpin Hpsame].
  apply usable_In in Hpin; [|exact std_sort_ok]. apply enumerate_In in Hpin.
  unfold samePitch, noteNumberOf in Hpsame. simpl in Hpsame.
  apply Z.eqb_eq in Hpsame.
  split; [|split; [exact Hpin | split; [exact Hpsame|]]].
  - unfold findVoiceToSteal. destruct (protectedVoices vs) as [lowp topp].
    rewrite Hvalid, Hf. reflexivity.
  - intros j u Hu Hupitch.
    assert (Huin : In (j, u) (usable (scanVoices vs))).
    { apply usable_In; [exact std_sort_ok | now apply enumerate_In]. }
    assert (Husame : samePitch n (j, u) = true).
    { unfold samePitch, noteNumberOf. simpl. now apply Z.eqb_eq. }
    destruct (find_sorted_least notYounger _ _ _
                                (usable_sorted std_sort_ok vs) Hf _ Huin Husame)
      as [Heq | Hle].
    + inversion Heq; subst. lia.
    + exact Hle.
Qed.

(** C6: when the scan leaves [low] and [top] on the same voice, [top] is
    cleared, so that voice alone is protected; and when no same-pitch
    voice applies and every voice of the pool is protected,
    [findVoiceToSteal] returns [top] if there is one and [low]
    otherwise. *)
Theorem protected_only_fallback (vs : list Voice) (n : Note)
        (lowp topp : option VoicePtr) :
  protectedVoices vs = (lowp, topp) ->
  (ptrOf (top (scanVoices vs)) = ptrOf (low (scanVoices vs)) ->
   lowp = ptrOf (low (scanVoices vs)) /\ topp = None)
  /\ ((isValid n = false
       \/ forall v, In v vs ->
                    initialNote (getCurrentlyPlayingNote v) <> initialNote n) ->
      (forall p, (p < length vs)%nat -> lowp = Some p \/ topp = Some p) ->
      findVoiceToSteal vs n = match topp with
                              | Some t => Some t
                              | None => lowp
                              end).
Proof.
  intros Hp. split.
  - intros Heq. unfold protectedVoices in Hp. inversion Hp; subst.
    split; [reflexivity|].
    apply ptr_eqb_eq in Heq. now rewrite Heq.
  - intros Hpitch Hall. unfold findVoiceToSteal. rewrite Hp.
    assert (Hprot : forall r, In r (usable (scanVoices vs)) ->
                              unprotected lowp topp r = false).
    { intros r Hr. apply usable_In in Hr; [|exact std_sort_ok].
      apply enumerate_In_bound in Hr.
      unfold unprotected. apply andb_false_iff.
      destruct (Hall _ Hr) as [H | H]; [left | right];
        rewrite <- not_true_iff_false, isNot_true; intros Hn; now apply Hn. }
    rewrite (same_pitch_search_fails vs n Hpitch). simpl.
    rewrite !find_all_false.
    + simpl. destruct topp; reflexivity.
    + exact Hprot.
    + intros r Hr. now rewrite (Hprot r Hr).
    + intros r Hr. now rewrite (Hprot r Hr).
Qed.

(** C1, as the code has it: in a pool of exactly three active,
    unreleased voices that hold the notes 40, 60 and 80 with their keys
    down, and with no same-pitch voice for the incoming note,
    [findVoiceToSteal] returns the voice that holds 60, the only voice
    that is neither [low] nor [top]. *)
Theorem three_voices_steal_middle (vs : list Voice) (n : Note) :
  Permutation (map (fun v => initialNote (getCurrentlyPlayingNote v)) vs)
              [40; 60; 80] ->
  Forall (fun v => isActive v = true
                   /\ isPlayingButReleased v = false
                   /\ keyState (getCurrentlyPlayingNote v) = keyDown) vs ->
  (isValid n = false \/ ~ In (initialNote n) [40; 60; 80]) ->
  exists p v,
    findVoiceToSteal vs n = Some p
    /\ nth_error vs p = Some v
    /\ initialNote (getCurrentlyPlayingNote v) = 60.
Proof.
  set (pitch := fun v : Voice => initialNote (getCurrentlyPlayingNote v)).
  intros Hperm Hall Hnote. rewrite Forall_forall in Hall.
  assert (Hnd : NoDup (map pitch vs)).
  { eapply Permutation_NoDup; [apply Permutation_sym; exact Hperm|].
    repeat constructor; simpl; intuition lia. }
  assert (Hrange : forall r, In r (enumerate vs) ->
                             noteNumberOf r = 40 \/ noteNumberOf r = 60
                             \/ noteNumberOf r = 80).
  { intros [i v] Hr. apply enumerate_In, nth_error_In in Hr.
    apply (in_map pitch) in Hr. eapply Permutation_in in Hr; [|exact Hperm].
    unfold noteNumberOf, pitch in *. simpl in *. intuition lia. }
  assert (Hhas : forall k, In k [40; 60; 80] ->
                           exists r, In r (enumerate vs) /\ noteNumberOf r = k).
  { intros k Hk. eapply Permutation_in in Hk; [|apply Permutation_sym; exact Hperm].
    apply in_map_iff in Hk. destruct Hk as (v & Hv & Hin).
    apply In_nth_error in Hin. destruct Hin as [i Hi].
    exists (i, v). split; [now apply enumerate_In | exact Hv]. }
  assert (Hunrel : forall r, In r (enumerate vs) ->
                             isPlayingButReleased (snd r) = false).
  { intros [i v] Hr. apply enumerate_In, nth_error_In in Hr.
    now destruct (Hall v Hr) as (_ & H & _). }
  assert (Hdown : forall r, In r (enumerate vs) -> keyNotDown r = false).
  { intros [i v] Hr. apply enumerate_In, nth_error_In in Hr.
    destruct (Hall v Hr) as (_ & _ & H). unfold keyNotDown. simpl.
    now rewrite H. }
  assert (Hinj : forall a b, In a (enumerate vs) -> In b (enumerate vs) ->
                             noteNumberOf a = noteNumberOf b -> a = b).
  { intros a b Ha Hb Heq. apply (enumerate_key_inj pitch vs); assumption. }
  destruct (Hhas 40) as (r40 & Hin40 & Hn40); [simpl; tauto|].
  destruct (Hhas 60) as (r60 & Hin60 & Hn60); [simpl; tauto|].
  destruct (Hhas 80) as (r80 & Hin80 & Hn80); [simpl; tauto|].
  (* low is the voice on 40, top the voice on 80 *)
  destruct (Protects_scan vs) as (Hlow & Htop & Hnone & Hboth). simpl in *.
  destruct (low (scanVoices vs)) as [l|] eqn:El.
  2:{ pose proof (eq_trans (eq_sym (Hnone eq_refl r40 Hin40))
                               (Hunrel r40 Hin40)). discriminate. }
  destruct (top (scanVoices vs)) as [t|] eqn:Et.
  2:{ destruct Hboth as [_ Hboth]. specialize (Hboth eq_refl). discriminate. }
  destruct (Hlow l eq_refl) as (Hlin & _ & Hlmin).
  destruct (Htop t eq_refl) as (Htin & _ & Htmax).
  assert (Hl40 : l = r40).
  { apply Hinj; try assumption.
    pose proof (Hlmin r40 Hin40 (Hunrel _ Hin40)). pose proof (Hrange l Hlin). lia. }
  assert (Ht80 : t = r80).
  { apply Hinj; try assumption.
    pose proof (Htmax r80 Hin80 (Hunrel _ Hin80)). pose proof (Hrange t Htin). lia. }
  subst l t.
  assert (Hne : fst r80 <> fst r40).
  { intros Heq. apply (enumerate_fst_inj vs) in Heq; try assumption.
    subst. lia. }
  assert (Hp : protectedVoices vs = (Some (fst r40), Some (fst r80))).
  { unfold protectedVoices. rewrite El, Et. simpl.
    destruct (_ =? _)%nat eqn:E; [|reflexivity].
    apply Nat.eqb_eq in E. contradiction. }
  (* the searches *)
  unfold findVoiceToSteal. rewrite Hp.
  rewrite same_pitch_search_fails.
  2:{ destruct Hnote as [Hnote | Hnote]; [now left | right].
      intros v Hv Heq. apply Hnote. rewrite <- Heq.
      apply (in_map pitch) in Hv. eapply Permutation_in in Hv; [|exact Hperm].
      exact Hv. }
  simpl.
  rewrite find_all_false.
  2:{ intros r Hr. apply usable_In in Hr; [|exact std_sort_ok].
      rewrite (Hunrel r Hr). apply andb_false_r. }
  rewrite find_all_false.
  2:{ intros r Hr. apply usable_In in Hr; [|exact std_sort_ok].
      rewrite (Hdown r Hr). apply andb_false_r. }
  simpl.
  destruct (find (unprotected _ _) (usable (scanVoices vs))) as [[p v]|] eqn:Hf.
  - simpl. exists p, v. split; [reflexivity|].
    destruct (find_some _ _ Hf) as [Hin Hun].
    apply usable_In in Hin; [|exact std_sort_ok].
    split; [now apply enumerate_In|].
    unfold unprotected in Hun. apply andb_true_iff in Hun.
    destruct Hun as [Hun1 Hun2]. rewrite isNot_true in Hun1, Hun2. simpl in *.
    destruct (Hrange _ Hin) as [H | [H | H]]; unfold noteNumberOf in H; simpl in H.
    + exfalso. apply Hun1. f_equal.
      change (fst r40 = fst (p, v)). f_equal. apply Hinj; try assumption.
      unfold noteNumberOf at 2. simpl. lia.
    + exact H.
    + exfalso. apply Hun2. f_equal.
      change (fst r80 = fst (p, v)). f_equal. apply Hinj; try assumption.
      unfold noteNumberOf at 2. simpl. lia.
  - exfalso. apply (find_not_None _ _ r60) in Hf; [exact Hf | |].
    + apply usable_In; [exact std_sort_ok | exact Hin60].
    + unfold unprotected. apply andb_true_iff.
      split; apply isNot_true; intros [= Heq];
        apply (enumerate_fst_inj vs) in Heq; try assumption; subst; lia.
Qed.

End Stealing.

(** ** Independence from the sorting algorithm *)

Section Determinism.

Context {VC : VoiceClass}.
Variables SORT1 SORT2 : StdSort VoiceRef.
Hypothesis sort1_ok : StdSortContract SORT1.
Hypothesis sort2_ok : StdSortContract SORT2.

Lemma protectedVoices_sort_independent (vs : list Voice) :
  @protectedVoices VC SORT1 vs = @protectedVoices VC SORT2 vs.
Proof.
  unfold protectedVoices.
  pose proof (@scan_protectStep VC SORT1 (enumerate vs) (mkScan [] None None)) as H1.
  pose proof (@scan_protectStep VC SORT2 (enumerate vs) (mkScan [] None None)) as H2.
  rewrite <- H2 in H1. unfold scanVoices. inversion H1 as [[Hl Ht]].
  now rewrite Hl, Ht.
Qed.

Lemma usable_sort_independent (vs : list Voice) :
  NoDup (map noteOnTime vs) ->
  usable (@scanVoices VC SORT1 vs) = usable (@scanVoices VC SORT2 vs).
Proof.
  intros Hnd.
  apply (sorted_permutation_unique (fun r : VoiceRef => noteOnTime (snd r))).
  - rewrite (usable_permutation sort1_ok). symmetry.
    apply (usable_permutation sort2_ok).
  - eapply Permutation_NoDup.
    + apply Permutation_map, Permutation_sym, (usable_permutation sort1_ok).
    + rewrite <- map_map. unfold enumerate. now rewrite enumerateFrom_snd.
  - apply (usable_sorted sort1_ok).
  - apply (usable_sorted sort2_ok).
Qed.

(** C3: for a pool whose voices carry pairwise distinct [noteOnTime]
    values, the voice [findVoiceToSteal] returns is a function of the
    pool and the incoming note alone: any two sorting algorithms that
    meet the contract of [std::sort] lead to the same voice.  And a
    returned voice is never both the [low] and the [top] the function
    holds when it returns. *)
Theorem stealing_deterministic (vs : list Voice) (n : Note) :
  vs <> [] ->
  NoDup (map noteOnTime vs) ->
  @findVoiceToSteal VC SORT1 vs n = @findVoiceToSteal VC SORT2 vs n
  /\ exists p,
      @findVoiceToSteal VC SORT1 vs n = Some p
      /\ ~ (fst (@protectedVoices VC SORT1 vs) = Some p
            /\ snd (@protectedVoices VC SORT1 vs) = Some p).
Proof.
  intros Hne Hnd. split.
  - unfold findVoiceToSteal.
    rewrite protectedVoices_sort_independent, (usable_sort_independent vs Hnd).
    reflexivity.
  - destruct (findVoiceToSteal_total sort1_ok vs n Hne) as (p & Hp & _).
    exists p. split; [exact Hp|]. intros [Hl Ht].
    destruct (@protectedVoices VC SORT1 vs) as [lowp topp] eqn:E.
    apply protectedVoices_inv in E. simpl in *.
    destruct E as [_ [E | [_ E]]]; congruence.
Qed.

End Determinism.

(** ** Finding a voice and starting notes *)

Section Allocation.

Context {VC : VoiceClass} {SORT : StdSort VoiceRef}.

Lemma firstIdle_unique (vs : list Voice) (i j : VoicePtr) :
  firstIdle vs i -> firstIdle vs j -> i = j.
Proof.
  intros [(v & Hv & Hidle) Hbefore] [(w & Hw & Hidle') Hbefore'].
  destruct (Nat.lt_trichotomy i j) as [Hlt | [Heq | Hgt]]; [|exact Heq|].
  - rewrite (Hbefore' i v Hlt Hv) in Hidle. discriminate.
  - rewrite (Hbefore j w Hgt Hw) in Hidle'. discriminate.
Qed.

(** The linear scan of [findFreeVoice]. *)
Lemma idle_scan (vs : list Voice) :
  match find (fun voice : VoiceRef => negb (isActive (snd voice))) (enumerate vs) with
  | Some voice => firstIdle vs (fst voice)
  | None => Forall (fun v => isActive v = true) vs
  end.
Proof.
  pose proof (find_enumerateFrom (fun v : Voice => negb (isActive v)) vs 0) as H.
  unfold enumerate.
  destruct (find _ (enumerateFrom 0 vs)) as [[i v]|]; simpl in *.
  - destruct H as (_ & Hnth & Hidle & Hbefore). rewrite Nat.sub_0_r in *.
    split.
    + exists v. split; [exact Hnth | now apply negb_true_iff].
    + intros j w Hj Hw. apply negb_false_iff. now apply (Hbefore j).
  - apply Forall_forall. intros v Hv. apply negb_false_iff. now apply H.
Qed.

Lemma findFreeVoice_idle (s : MPESynthesiser) (n : Note) (steal : bool)
      (i : VoicePtr) :
  firstIdle (voices s) i -> findFreeVoice s n steal = Some i.
Proof.
  intros Hi. unfold findFreeVoice. pose proof (idle_scan (voices s)) as H.
  destruct (find _ (enumerate (voices s))) as [r|].
  - f_equal. now apply (firstIdle_unique (voices s)).
  - destruct Hi as [(v & Hv & Hidle) _]. rewrite Forall_forall in H.
    apply nth_error_In in Hv. rewrite (H v Hv) in Hidle. discriminate.
Qed.

Lemma findFreeVoice_busy (s : MPESynthesiser) (n : Note) (steal : bool) :
  Forall (fun v => isActive v = true) (voices s) ->
  findFreeVoice s n steal
  = if steal then findVoiceToSteal (voices s) n else None.
Proof.
  intros Hall. unfold findFreeVoice. pose proof (idle_scan (voices s)) as H.
  destruct (find _ (enumerate (voices s))) as [r|]; [|reflexivity].
  destruct H as [(v & Hv & Hidle) _]. rewrite Forall_forall in Hall.
  apply nth_error_In in Hv. rewrite (Hall v Hv) in Hidle. discriminate.
Qed.

Lemma exists_idle_firstIdle (vs : list Voice) :
  (exists v, In v vs /\ isActive v = false) -> exists i, firstIdle vs i.
Proof.
  intros (v & Hv & Hidle). pose proof (idle_scan vs) as H.
  destruct (find _ (enumerate vs)) as [r|]; [now exists (fst r)|].
  rewrite Forall_forall in H. rewrite (H v Hv) in Hidle. discriminate.
Qed.

(** C4: [findFreeVoice] returns the first voice, in pool order, that is
    not active; when every voice is active it returns what the stealing
    heuristic returns if stealing is allowed, and no voice otherwise.
    So along any run of note-starts, a start that finds an idle voice in
    the pool starts the idle voice of lowest index. *)
Theorem findFreeVoice_first_idle (s : MPESynthesiser) :
  (forall n steal i,
      firstIdle (voices s) i -> findFreeVoice s n steal = Some i)
  /\ (forall n steal,
         Forall (fun v => isActive v = true) (voices s) ->
         findFreeVoice s n steal
         = if steal then findVoiceToSteal (voices s) n else None)
  /\ (forall notes,
         Forall (fun st =>
                   (exists v, In v (voices (before st)) /\ isActive v = false) ->
                   exists i, firstIdle (voices (before st)) i
                             /\ obtained st = Some i
                             /\ after st = startVoice i (started st) (before st))
                (noteAddedRun notes s)).
Proof.
  split; [|split].
  - intros n steal i. apply findFreeVoice_idle.
  - intros n steal. apply findFreeVoice_busy.
  - intros notes. revert s. induction notes as [|n rest IH]; intros s; simpl.
    + constructor.
    + constructor; [|apply IH]. simpl. intros Hidle.
      apply exists_idle_firstIdle in Hidle. destruct Hidle as [i Hi].
      exists i. split; [exact Hi|].
      unfold noteAdded. rewrite (findFreeVoice_idle s n _ i Hi). now split.
Qed.

(** C5: with every voice active and voice stealing switched off,
    [noteAdded] returns the synthesiser it was given: no voice, neither
    the counter nor the call log changes, and the note is dropped.  The
    handler returns nothing besides the state. *)
Theorem noteAdded_pool_full (s : MPESynthesiser) (n : Note) :
  Forall (fun v => isActive v = true) (voices s) ->
  shouldStealVoices s = false ->
  findFreeVoice s n (shouldStealVoices s) = None /\ noteAdded n s = s.
Proof.
  intros Hall Hsteal. unfold noteAdded.
  rewrite (findFreeVoice_busy s n _ Hall), Hsteal. now split.
Qed.

Hypothesis std_sort_ok : StdSortContract std_sort.

(** Whatever [findFreeVoice] returns is a voice of the pool. *)
Lemma findFreeVoice_in_pool (s : MPESynthesiser) (n : Note) (steal : bool)
      (i : VoicePtr) :
  findFreeVoice s n steal = Some i -> (i < length (voices s))%nat.
Proof.
  unfold findFreeVoice.
  destruct (find _ (enumerate (voices s))) as [r|] eqn:Hf.
  - intros [= <-]. apply find_some in Hf. now apply enumerate_In_bound.
  - destruct steal; [|discriminate].
    now apply findVoiceToSteal_in_pool.
Qed.

Lemma findFreeVoice_total (s : MPESynthesiser) (n : Note) :
  voices s <> [] ->
  exists i, findFreeVoice s n true = Some i /\ (i < length (voices s))%nat.
Proof.
  intros Hne. destruct (findFreeVoice s n true) as [i|] eqn:H.
  - exists i. split; [reflexivity | now apply findFreeVoice_in_pool in H].
  - exfalso. unfold findFreeVoice in H.
    destruct (find _ (enumerate (voices s))); [discriminate|].
    now apply (findVoiceToSteal_not_None std_sort_ok) in H.
Qed.

Lemma runHook_noteOnTime (h : VoiceHook) (v : Voice) :
  noteOnTime (runHook h v) = noteOnTime v.
Proof. unfold runHook. now destruct (voiceHook h v). Qed.

(** A start that obtains a voice stamps it with the counter and moves
    the counter on by one. *)
Lemma noteAdded_stamp (s : MPESynthesiser) (n : Note) (i : VoicePtr) :
  findFreeVoice s n (shouldStealVoices s) = Some i ->
  option_map noteOnTime (nth_error (voices (noteAdded n s)) i)
  = Some (lastNoteOnCounter s)
  /\ lastNoteOnCounter (noteAdded n s) = uint32 (lastNoteOnCounter s + 1).
Proof.
  intros Hfree. unfold noteAdded. rewrite Hfree. simpl. split; [|reflexivity].
  apply findFreeVoice_in_pool in Hfree.
  destruct (nth_error (voices s) i) as [v|] eqn:Hv.
  - erewrite updateAt_nth_same by exact Hv. simpl.
    now rewrite runHook_noteOnTime.
  - apply nth_error_None in Hv. lia.
Qed.

Lemma noteAddedRun_stamps (notes : list Note) (s : MPESynthesiser) :
  Forall (fun st => obtained st <> None) (noteAddedRun notes s) ->
  Forall (fun st =>
            stampOf st = Some (lastNoteOnCounter (before st))
            /\ lastNoteOnCounter (after st)
               = uint32 (lastNoteOnCounter (before st) + 1))
         (noteAddedRun notes s).
Proof.
  revert s. induction notes as [|n rest IH]; intros s; simpl; intros Hall.
  - constructor.
  - inversion Hall as [|? ? Hobt Hrest]; subst. simpl in Hobt.
    constructor; [|now apply IH].
    unfold stampOf. simpl.
    destruct (findFreeVoice s n (shouldStealVoices s)) as [i|] eqn:Hfree;
      [|contradiction].
    now apply noteAdded_stamp.
Qed.

(** C9, as the code has it: along a run of note-starts that each obtain
    a voice, every start stamps its voice with the current value of
    [lastNoteOnCounter] and then increments the counter modulo 2^32; as
    long as the counter does not wrap around during the run, the stamps
    are strictly increasing in start order. *)
Theorem activation_order_increasing (notes : list Note) (s : MPESynthesiser) :
  0 <= lastNoteOnCounter s ->
  lastNoteOnCounter s + Z.of_nat (length notes) <= uint32_modulus ->
  Forall (fun st => obtained st <> None) (noteAddedRun notes s) ->
  Forall (fun st =>
            stampOf st = Some (lastNoteOnCounter (before st))
            /\ lastNoteOnCounter (after st)
               = uint32 (lastNoteOnCounter (before st) + 1))
         (noteAddedRun notes s)
  /\ exists stamps,
      map stampOf (noteAddedRun notes s) = map Some stamps
      /\ StronglySorted Z.lt stamps.
Proof.
  intros Hpos Hroom Hall. split; [now apply noteAddedRun_stamps|].
  enough (H : exists stamps,
             map stampOf (noteAddedRun notes s) = map Some stamps
             /\ StronglySorted Z.lt stamps
             /\ Forall (fun t => lastNoteOnCounter s <= t) stamps).
  { destruct H as (stamps & H1 & H2 & _). now exists stamps. }
  revert s Hpos Hroom Hall.
  induction notes as [|n rest IH]; intros s Hpos Hroom Hall.
  - exists []. repeat constructor.
  - simpl in Hall. inversion Hall as [|? ? Hobt Hrest]; subst. simpl in Hobt.
    destruct (findFreeVoice s n (shouldStealVoices s)) as [i|] eqn:Hfree;
      [|contradiction].
    destruct (noteAdded_stamp s n i Hfree) as [Hstamp Hnext].
    simpl length in Hroom. rewrite Nat2Z.inj_succ in Hroom.
    destruct rest as [|n' rest'].
    + exists [lastNoteOnCounter s]. simpl. unfold stampOf. simpl.
      rewrite Hfree, Hstamp.
      split; [reflexivity|]. split; repeat constructor. lia.
    + assert (Hnowrap : lastNoteOnCounter (noteAdded n s) = lastNoteOnCounter s + 1).
      { rewrite Hnext. unfold uint32. apply Z.mod_small.
        simpl length in Hroom. rewrite Nat2Z.inj_succ in Hroom. lia. }
      destruct (IH (noteAdded n s)) as (stamps & Hmap & Hsorted & Hlow).
      * lia.
      * rewrite Hnowrap. lia.
      * exact Hrest.
      * exists (lastNoteOnCounter s :: stamps).
        change (noteAddedRun (n :: n' :: rest') s)
          with (mkStep s n (findFreeVoice s n (shouldStealVoices s)) (noteAdded n s)
                       :: noteAddedRun (n' :: rest') (noteAdded n s)).
        rewrite map_cons, Hmap. unfold stampOf at 1. simpl.
        rewrite Hfree, Hstamp.
        split; [reflexivity|]. split.
        -- constructor; [exact Hsorted|].
           eapply Forall_impl; [|exact Hlow]. simpl. intros t Ht. lia.
        -- constructor; [lia|].
           eapply Forall_impl; [|exact Hlow]. simpl. intros t Ht. lia.
Qed.

Lemma reduceLoop_removes_stolen (fuel : nat) (newNumVoices : Z)
      (s : MPESynthesiser) :
  0 <= newNumVoices ->
  (length (voices s) <= fuel)%nat ->
  exists s' trace,
    reduceLoop fuel newNumVoices s = Some (s', trace)
    /\ ~ In RemovedOldest trace
    /\ Z.of_nat (length (voices s'))
       = Z.min (Z.of_nat (length (voices s))) newNumVoices.
Proof.
  intros Hpos. revert s. induction fuel as [|fuel IH]; intros s Hfuel.
  - simpl. destruct (Z.gtb_spec (Z.of_nat (length (voices s))) newNumVoices).
    + lia.
    + exists s, []. split; [reflexivity|]. split; [intros []|]. lia.
  - simpl. destruct (Z.gtb_spec (Z.of_nat (length (voices s))) newNumVoices).
    + assert (Hne : voices s <> []).
      { intros E. rewrite E in *. simpl in *. lia. }
      destruct (findFreeVoice_total s defaultNote Hne) as (i & Hfree & Hi).
      rewrite Hfree.
      destruct (IH (set_voices (removeAt i (voices s)) s)) as (s' & tr & Hrun & Hno & Hlen).
      { simpl. rewrite removeAt_length by exact Hi. lia. }
      rewrite Hrun. simpl. exists s', (RemovedObject i :: tr).
      split; [reflexivity|]. split.
      * intros [Hbad | Hbad]; [discriminate | contradiction].
      * rewrite Hlen. simpl. rewrite removeAt_length by exact Hi. lia.
    + exists s, []. split; [reflexivity|]. split; [intros []|]. lia.
Qed.

(** C10: on a pool that holds at least one voice [findVoiceToSteal]
    always returns a voice of the pool, and so does [findFreeVoice] with
    stealing allowed; hence [reduceNumVoices], asked for a number of
    voices that is not negative, leaves its loop without ever taking the
    branch that removes the voice at index 0. *)
Theorem steal_never_fails (s : MPESynthesiser) (n : Note) (newNumVoices : Z) :
  (voices s <> [] ->
   (exists p, findVoiceToSteal (voices s) n = Some p
              /\ (p < length (voices s))%nat)
   /\ (exists p, findFreeVoice s n true = Some p
                 /\ (p < length (voices s))%nat))
  /\ (0 <= newNumVoices ->
      exists s' trace,
        reduceNumVoices newNumVoices s = Some (s', trace)
        /\ ~ In RemovedOldest trace
        /\ Z.of_nat (length (voices s'))
           = Z.min (Z.of_nat (length (voices s))) newNumVoices).
Proof.
  split.
  - intros Hne. split.
    + now apply findVoiceToSteal_total.
    + now apply findFreeVoice_total.
  - intros Hpos. now apply reduceLoop_removes_stolen.
Qed.

End Allocation.

(** ** Control changes and turning every voice off *)

Section Handlers.

Context {VC : VoiceClass}.

Lemma changeLoop_eq (h : VoiceHook) (n : Note) (k : nat) (vs : list Voice) :
  changeLoop h n k vs
  = (map (fun v => if isCurrentlyPlayingNote v n
                   then runHook h (set_currentlyPlayingNote n v)
                   else v) vs,
     map (fun r : VoiceRef => VoiceCall (fst r) h)
         (filter (fun r : VoiceRef => isCurrentlyPlayingNote (snd r) n)
                 (enumerateFrom k vs))).
Proof.
  revert k. induction vs as [|v rest IH]; intros k; simpl; [reflexivity|].
  rewrite IH. destruct (isCurrentlyPlayingNote v n); reflexivity.
Qed.

Lemma noteChanged_eq (h : VoiceHook) (n : Note) (s : MPESynthesiser) :
  noteChanged h n s
  = mkSynth (map (fun v => if isCurrentlyPlayingNote v n
                           then runHook h (set_currentlyPlayingNote n v)
                           else v) (voices s))
            (lastNoteOnCounter s) (shouldStealVoices s)
            (callLog s
             ++ map (fun r : VoiceRef => VoiceCall (fst r) h)
                    (filter (fun r : VoiceRef => isCurrentlyPlayingNote (snd r) n)
                            (enumerate (voices s)))).
Proof. unfold noteChanged, enumerate. now rewrite changeLoop_eq. Qed.

(** C8: each of the four control-change handlers hands the changed note
    to every voice that is playing it (the voice the callback runs on
    holds the changed note, with its [noteOnTime] and its own state as
    before) and calls that voice's callback for the change, once per such
    voice and in pool order; a voice that is not playing the note is left
    as it was, assigned note included. *)
Theorem control_change_reaches_all_matches
        (h : VoiceHook) (handler : Note -> MPESynthesiser -> MPESynthesiser)
        (changedNote : Note) (s : MPESynthesiser) :
  In (h, handler) controlChangeHandlers ->
  callLog (handler changedNote s)
  = callLog s
    ++ map (fun r : VoiceRef => VoiceCall (fst r) h)
           (filter (fun r : VoiceRef => isCurrentlyPlayingNote (snd r) changedNote)
                   (enumerate (voices s)))
  /\ length (voices (handler changedNote s)) = length (voices s)
  /\ forall i v,
      nth_error (voices s) i = Some v ->
      (isCurrentlyPlayingNote v changedNote = true ->
       nth_error (voices (handler changedNote s)) i
       = Some (runHook h (mkVoice changedNote (noteOnTime v) (derived v)))
       /\ In (VoiceCall i h) (callLog (handler changedNote s)))
      /\ (isCurrentlyPlayingNote v changedNote = false ->
          nth_error (voices (handler changedNote s)) i = Some v
          /\ forall h', ~ In (VoiceCall i h')
                             (map (fun r : VoiceRef => VoiceCall (fst r) h)
                                  (filter (fun r : VoiceRef =>
                                             isCurrentlyPlayingNote (snd r) changedNote)
                                          (enumerate (voices s))))).
Proof.
  intros Hin.
  assert (Hh : handler = noteChanged h).
  { simpl in Hin.
    destruct Hin as [H | [H | [H | [H | []]]]]; inversion H; reflexivity. }
  subst handler. rewrite noteChanged_eq. simpl.
  split; [reflexivity|]. split; [apply length_map|].
  intros i v Hv. rewrite nth_error_map, Hv. simpl. split; intros Hm; rewrite Hm.
  - split; [reflexivity|]. apply in_or_app. right.
    apply (in_map (fun r : VoiceRef => VoiceCall (fst r) h) _ (i, v)).
    apply filter_In. split; [now apply enumerate_In | exact Hm].
  - split; [reflexivity|]. intros h' Hcall.
    apply in_map_iff in Hcall. destruct Hcall as ([j w] & Heq & Hr).
    apply filter_In in Hr. destruct Hr as [Hr Hw]. simpl in *.
    inversion Heq; subst. apply enumerate_In in Hr. congruence.
Qed.

Lemma turnOffLoop_eq (allowTailOff : bool) (k : nat) (vs : list Voice) :
  turnOffLoop allowTailOff k vs
  = (map (fun v => runHook (NoteStopped allowTailOff) (switchedOff v)) vs,
     map (fun i => VoiceCall i (NoteStopped allowTailOff)) (seq k (length vs))).
Proof.
  revert k. induction vs as [|v rest IH]; intros k; simpl; [reflexivity|].
  now rewrite IH.
Qed.

Lemma turnOffAllVoices_eq (allowTailOff : bool) (s : MPESynthesiser) :
  turnOffAllVoices allowTailOff s
  = mkSynth (map (fun v => runHook (NoteStopped allowTailOff) (switchedOff v))
                 (voices s))
            (lastNoteOnCounter s) (shouldStealVoices s)
            (callLog s
             ++ map (fun i => VoiceCall i (NoteStopped allowTailOff))
                    (seq 0 (length (voices s)))
             ++ [InstrumentReleaseAllNotes]).
Proof. unfold turnOffAllVoices. now rewrite turnOffLoop_eq. Qed.

(** What the synthesiser writes before it stops a voice: the key state
    and the note-off velocity, nothing of the identity of the note. *)
Lemma switchedOff_note (v : Voice) :
  keyState (currentlyPlayingNote (switchedOff v)) = off
  /\ sameIdentity (currentlyPlayingNote (switchedOff v)) (currentlyPlayingNote v).
Proof. unfold switchedOff, sameIdentity. simpl. auto. Qed.

Lemma stopped_note (allowTailOff : bool) (v : Voice) :
  StopKeepsOrClears ->
  let v' := runHook (NoteStopped allowTailOff) (switchedOff v) in
  keyState (currentlyPlayingNote v') = off
  /\ (sameIdentity (currentlyPlayingNote v') (currentlyPlayingNote v)
      \/ currentlyPlayingNote v' = defaultNote).
Proof.
  intros [Hdef Hstop]. simpl. unfold runHook.
  specialize (Hstop allowTailOff (switchedOff v)).
  destruct (voiceHook (NoteStopped allowTailOff) (switchedOff v)) as [n d].
  simpl in *. destruct (switchedOff_note v) as [Hoff Hid].
  destruct Hstop as [-> | ->].
  - split; [exact Hoff | now left].
  - split; [exact Hdef | now right].
Qed.

(** C7, as the code has it: [turnOffAllVoices] called twice in a row,
    on voices whose stop callback leaves their note alone or detaches
    it.  After each call the key state of every voice is off, so both
    calls leave the same key states; each voice holds the note it held
    before the call (same identity) or no note at all; each call stops
    every voice once, in pool order, and then tells the instrument to
    release all notes; the counter and the stealing switch are left
    alone.  Whether a voice is still active afterwards is up to its stop
    callback. *)
Theorem turnOffAllVoices_twice (b1 b2 : bool) (s : MPESynthesiser) :
  StopKeepsOrClears ->
  let s1 := turnOffAllVoices b1 s in
  let s2 := turnOffAllVoices b2 s1 in
  Forall (fun v => keyState (currentlyPlayingNote v) = off) (voices s1)
  /\ Forall (fun v => keyState (currentlyPlayingNote v) = off) (voices s2)
  /\ map (fun v => keyState (currentlyPlayingNote v)) (voices s2)
     = map (fun v => keyState (currentlyPlayingNote v)) (voices s1)
  /\ Forall2 (fun v v' =>
                sameIdentity (currentlyPlayingNote v') (currentlyPlayingNote v)
                \/ currentlyPlayingNote v' = defaultNote)
             (voices s) (voices s1)
  /\ Forall2 (fun v v' =>
                sameIdentity (currentlyPlayingNote v') (currentlyPlayingNote v)
                \/ currentlyPlayingNote v' = defaultNote)
             (voices s1) (voices s2)
  /\ callLog s1
     = callLog s
       ++ map (fun i => VoiceCall i (NoteStopped b1)) (seq 0 (length (voices s)))
       ++ [InstrumentReleaseAllNotes]
  /\ callLog s2
     = callLog s1
       ++ map (fun i => VoiceCall i (NoteStopped b2)) (seq 0 (length (voices s)))
       ++ [InstrumentReleaseAllNotes]
  /\ lastNoteOnCounter s2 = lastNoteOnCounter s
  /\ shouldStealVoices s2 = shouldStealVoices s.
Proof.
  intros Hstop s1 s2. subst s1 s2. rewrite !turnOffAllVoices_eq. simpl.
  assert (Hoff : forall b (vs : list Voice),
             Forall (fun v => keyState (currentlyPlayingNote v) = off)
                    (map (fun v => runHook (NoteStopped b) (switchedOff v)) vs)).
  { intros b vs. apply Forall_forall. intros v' Hv'.
    apply in_map_iff in Hv'. destruct Hv' as (v & <- & _).
    apply (stopped_note b v Hstop). }
  assert (Hid : forall b (vs : list Voice),
             Forall2 (fun v v' =>
                        sameIdentity (currentlyPlayingNote v') (currentlyPlayingNote v)
                        \/ currentlyPlayingNote v' = defaultNote)
                     vs (map (fun v => runHook (NoteStopped b) (switchedOff v)) vs)).
  { intros b vs. induction vs as [|v rest IH]; simpl; constructor; [|exact IH].
    apply (stopped_note b v Hstop). }
  split; [apply Hoff|]. split; [apply Hoff|]. split.
  { induction (voices s) as [|v rest IH]; simpl; [reflexivity|].
    rewrite IH. f_equal.
    destruct (stopped_note b1 v Hstop) as [H1 _].
    destruct (stopped_note b2 (runHook (NoteStopped b1) (switchedOff v)) Hstop)
      as [H2 _].
    simpl in H1, H2. congruence. }
  split; [apply Hid|]. split; [apply Hid|].
  rewrite length_map. repeat split.
Qed.

End Handlers.

(** * The definitions at work on the model voice class *)

Lemma three_voices_steal_middle_witness :
  exists p v,
    @findVoiceToSteal Model.fadingVoice Model.sorter Model.chord Model.noNote = Some p
    /\ nth_error Model.chord p = Some v
    /\ initialNote (@getCurrentlyPlayingNote Model.fadingVoice v) = 60.
Proof.
  apply (@three_voices_steal_middle Model.fadingVoice Model.sorter
                                    insertionSort_contract Model.chord Model.noNote).
  - apply Permutation_refl.
  - repeat constructor.
  - left. reflexivity.
Defined.

(** C1 as stated does not hold: with the keys 40, 60 and 80 held, nothing
    released and no same-pitch voice, the voice returned is the one at
    index 1, which holds 60, and not the one at index 2, which holds 80. *)
Lemma three_voices_top_is_kept :
  @findVoiceToSteal Model.fadingVoice Model.sorter Model.chord Model.noNote
  = Some 1%nat
  /\ nth_error Model.chord 1 = Some (Model.playing 60 keyDown 2)
  /\ nth_error Model.chord 2 = Some (Model.playing 80 keyDown 3)
  /\ @findVoiceToSteal Model.fadingVoice Model.sorter Model.chord Model.noNote
     <> Some 2%nat.
Proof. vm_compute. repeat split; congruence. Qed.

Lemma same_pitch_oldest_first_witness :
  exists p w,
    @findVoiceToSteal Model.fadingVoice Model.sorter Model.doubled
                      (Model.note 60 keyDown) = Some p
    /\ nth_error Model.doubled p = Some w
    /\ initialNote (@getCurrentlyPlayingNote Model.fadingVoice w) = 60
    /\ forall j u, nth_error Model.doubled j = Some u ->
                   initialNote (@getCurrentlyPlayingNote Model.fadingVoice u) = 60 ->
                   noteOnTime w <= noteOnTime u.
Proof.
  apply (@same_pitch_oldest_first Model.fadingVoice Model.sorter
                                  insertionSort_contract Model.doubled
                                  (Model.note 60 keyDown)).
  - reflexivity.
  - exists 0%nat, (Model.playing 60 keyDown 5). split; reflexivity.
Defined.

Lemma stealing_deterministic_witness :
  @findVoiceToSteal Model.fadingVoice Model.sorter Model.chord Model.noNote
  = @findVoiceToSteal Model.fadingVoice Model.backwardSorter Model.chord Model.noNote
  /\ exists p,
      @findVoiceToSteal Model.fadingVoice Model.sorter Model.chord Model.noNote = Some p
      /\ ~ (fst (@protectedVoices Model.fadingVoice Model.sorter Model.chord) = Some p
            /\ snd (@protectedVoices Model.fadingVoice Model.sorter Model.chord) = Some p).
Proof.
  apply (@stealing_deterministic Model.fadingVoice Model.sorter Model.backwardSorter
                                 insertionSort_contract backwardSort_contract
                                 Model.chord Model.noNote).
  - discriminate.
  - simpl. repeat constructor; simpl; intuition lia.
Defined.

Lemma findFreeVoice_first_idle_witness :
  @findFreeVoice Model.fadingVoice Model.sorter
                 (Model.synth [Model.playing 60 keyDown 7; Model.idle; Model.idle] 8 true)
                 (Model.note 64 keyDown) true
  = Some 1%nat.
Proof.
  apply (@findFreeVoice_first_idle Model.fadingVoice Model.sorter).
  split.
  - exists Model.idle. split; reflexivity.
  - intros [|[|j]] w Hj Hw; [|lia|lia].
    inversion Hw; subst. reflexivity.
Defined.

Lemma noteAdded_pool_full_witness :
  @findFreeVoice Model.fadingVoice Model.sorter (Model.synth Model.chord 4 false)
                 (Model.note 64 keyDown) false = None
  /\ @noteAdded Model.fadingVoice Model.sorter (Model.note 64 keyDown)
                (Model.synth Model.chord 4 false)
     = Model.synth Model.chord 4 false.
Proof.
  apply (@noteAdded_pool_full Model.fadingVoice Model.sorter
                              (Model.synth Model.chord 4 false)
                              (Model.note 64 keyDown)).
  - repeat constructor.
  - reflexivity.
Defined.

Lemma protected_only_fallback_witness :
  @findVoiceToSteal Model.fadingVoice Model.sorter Model.duo Model.noNote
  = Some 1%nat.
Proof.
  apply (@protected_only_fallback Model.fadingVoice Model.sorter
                                  insertionSort_contract Model.duo Model.noNote
                                  (Some 0%nat) (Some 1%nat)).
  - reflexivity.
  - left. reflexivity.
  - intros [|[|p]] Hp; simpl in Hp; [now left | now right | lia].
Defined.

Lemma turnOffAllVoices_twice_witness :
  Forall (fun v => keyState (currentlyPlayingNote v) = off)
         (voices (@turnOffAllVoices Model.fadingVoice true
                    (@turnOffAllVoices Model.fadingVoice false
                       (Model.synth Model.chord 4 false)))).
Proof.
  apply (@turnOffAllVoices_twice Model.fadingVoice false true
                                 (Model.synth Model.chord 4 false)).
  split; [reflexivity|].
  intros [|] v; simpl; auto.
Defined.

(** C7 as stated does not hold: a voice that is allowed to tail off keeps
    its note, so after two calls its key state is off and it is still
    active. *)
Lemma tail_off_leaves_voice_active :
  let s := Model.synth [Model.playing 60 keyDown 0] 1 false in
  let s2 := @turnOffAllVoices Model.fadingVoice true
              (@turnOffAllVoices Model.fadingVoice true s) in
  map (@isActive Model.fadingVoice) (voices s2) = [true]
  /\ map (fun v => keyState (currentlyPlayingNote v)) (voices s2) = [off].
Proof. vm_compute. split; reflexivity. Qed.

Lemma control_change_reaches_all_matches_witness :
  callLog (@noteKeyStateChanged Model.fadingVoice
             (Model.note 60 sustained) (Model.synth Model.doubled 6 true))
  = [VoiceCall 0 NoteKeyStateChanged; VoiceCall 1 NoteKeyStateChanged]
  /\ length (voices (@noteKeyStateChanged Model.fadingVoice
                       (Model.note 60 sustained) (Model.synth Model.doubled 6 true)))
     = 3%nat
  /\ forall i v,
      nth_error Model.doubled i = Some v ->
      (@isCurrentlyPlayingNote Model.fadingVoice v (Model.note 60 sustained) = true ->
       nth_error (voices (@noteKeyStateChanged Model.fadingVoice
                            (Model.note 60 sustained)
                            (Model.synth Model.doubled 6 true))) i
       = Some (@runHook Model.fadingVoice NoteKeyStateChanged
                        (mkVoice (Model.note 60 sustained) (noteOnTime v) (derived v)))
       /\ In (VoiceCall i NoteKeyStateChanged)
             (callLog (@noteKeyStateChanged Model.fadingVoice
                         (Model.note 60 sustained)
                         (Model.synth Model.doubled 6 true))))
      /\ (@isCurrentlyPlayingNote Model.fadingVoice v (Model.note 60 sustained) = false ->
          nth_error (voices (@noteKeyStateChanged Model.fadingVoice
                               (Model.note 60 sustained)
                               (Model.synth Model.doubled 6 true))) i
          = Some v
          /\ forall h', ~ In (VoiceCall i h')
                             [VoiceCall 0 NoteKeyStateChanged;
                              VoiceCall 1 NoteKeyStateChanged]).
Proof.
  apply (@control_change_reaches_all_matches
           Model.fadingVoice NoteKeyStateChanged
           (@noteKeyStateChanged Model.fadingVoice)
           (Model.note 60 sustained) (Model.synth Model.doubled 6 true)).
  right. right. right. left. reflexivity.
Defined.

Lemma activation_order_increasing_witness :
  exists stamps,
    map (@stampOf Model.fadingVoice)
        (@noteAddedRun Model.fadingVoice Model.sorter
                       [Model.note 60 keyDown; Model.note 64 keyDown]
                       (Model.synth [Model.idle; Model.idle] 7 false))
    = map Some stamps
    /\ StronglySorted Z.lt stamps.
Proof.
  apply (@activation_order_increasing
           Model.fadingVoice Model.sorter insertionSort_contract
           [Model.note 60 keyDown; Model.note 64 keyDown]
           (Model.synth [Model.idle; Model.idle] 7 false)).
  - simpl. lia.
  - vm_compute. discriminate.
  - repeat constructor; vm_compute; discriminate.
Defined.

(** C9 as stated does not hold: when the 32-bit counter wraps around, the
    second of two starts, neither of which steals a voice, is stamped
    with a lower value than the first. *)
Lemma activation_order_wraps :
  let run := @noteAddedRun Model.fadingVoice Model.sorter
                           [Model.note 60 keyDown; Model.note 64 keyDown]
                           (Model.synth [Model.idle; Model.idle] 4294967295 false) in
  map (@obtained Model.fadingVoice) run = [Some 0%nat; Some 1%nat]
  /\ map (@stampOf Model.fadingVoice) run = [Some 4294967295; Some 0]
  /\ ~ StronglySorted Z.lt [4294967295; 0].
Proof.
  vm_compute. repeat split.
  intros H. inversion H as [|? ? _ Hall]; subst.
  inversion Hall as [|? ? Hlt _]; subst. discriminate.
Qed.

Lemma steal_never_fails_witness :
  exists s' trace,
    @reduceNumVoices Model.fadingVoice Model.sorter 1 (Model.synth Model.chord 4 true)
    = Some (s', trace)
    /\ ~ In RemovedOldest trace
    /\ Z.of_nat (length (voices s'))
       = Z.min (Z.of_nat (length (voices (Model.synth Model.chord 4 true)))) 1.
Proof.
  apply (@steal_never_fails Model.fadingVoice Model.sorter insertionSort_contract
                            (Model.synth Model.chord 4 true) Model.noNote 1).
  lia.
Defined.

(** * Further properties of the synthesiser *)

(** ** Lists *)

Lemma updateAt_split {A : Type} (f : A -> A) (l : list A) (i : nat) (x : A) :
  nth_error l i = Some x ->
  l = firstn i l ++ x :: skipn (S i) l
  /\ updateAt i f l = firstn i l ++ f x :: skipn (S i) l.
Proof.
  revert i. induction l as [|y rest IH]; intros [|i]; simpl; try discriminate.
  - intros [= ->]. now split.
  - intros H. destruct (IH i H) as [H1 H2]. split; [f_equal; exact H1|].
    now rewrite H2.
Qed.

Lemma firstn_succ_nth {A : Type} (l : list A) (i : nat) (x : A) :
  nth_error l i = Some x -> firstn (S i) l = firstn i l ++ [x].
Proof.
  revert i. induction l as [|y rest IH]; intros [|i]; simpl; try discriminate.
  - now intros [= ->].
  - intros H. now rewrite <- (IH i H).
Qed.

Lemma enumerateFrom_app {A : Type} (l1 l2 : list A) (k : nat) :
  enumerateFrom k (l1 ++ l2)
  = enumerateFrom k l1 ++ enumerateFrom (k + length l1) l2.
Proof.
  revert k. induction l1 as [|x rest IH]; intros k; simpl.
  - now rewrite Nat.add_0_r.
  - rewrite IH. do 3 f_equal. lia.
Qed.

(** ** noteReleased *)

Section Release.

Context {VC : VoiceClass}.

Lemma releaseLoop_eq (n : Note) (i : nat) (s : MPESynthesiser) :
  (i <= length (voices s))%nat ->
  releaseLoop n i s
  = mkSynth (map (afterRelease n) (firstn i (voices s)) ++ skipn i (voices s))
            (lastNoteOnCounter s) (shouldStealVoices s)
            (callLog s
             ++ map (fun r : VoiceRef => VoiceCall (fst r) (NoteStopped true))
                    (rev (filter (fun r : VoiceRef => isCurrentlyPlayingNote (snd r) n)
                                 (enumerate (firstn i (voices s)))))).
Proof.
  revert s. induction i as [|j IH]; intros s Hle.
  - simpl. rewrite app_nil_r. now destruct s.
  - simpl releaseLoop.
    destruct (nth_error (voices s) j) as [v|] eqn:Hv.
    2:{ apply nth_error_None in Hv. lia. }
    destruct (updateAt_split
                (fun v => runHook (NoteStopped true) (set_currentlyPlayingNote n v))
                (voices s) j v Hv) as [Hsplit Hupd].
    assert (Hlen : length (firstn j (voices s)) = j) by (apply firstn_length_le; lia).
    rewrite (firstn_succ_nth _ _ _ Hv).
    unfold enumerate. rewrite enumerateFrom_app, Hlen, filter_app, rev_app_distr,
      map_app, map_app. simpl.
    set (s' := if isCurrentlyPlayingNote v n then stopVoice j n true s else s).
    assert (Hvs : voices s' = firstn j (voices s) ++ afterRelease n v :: skipn (S j) (voices s)).
    { unfold s', afterRelease. destruct (isCurrentlyPlayingNote v n); simpl.
      - exact Hupd.
      - exact Hsplit. }
    assert (Hfirst : firstn j (voices s') = firstn j (voices s)).
    { rewrite Hvs. rewrite firstn_app, Hlen, Nat.sub_diag. simpl.
      rewrite app_nil_r. rewrite <- Hlen at 1. apply firstn_all. }
    assert (Hskip : skipn j (voices s') = afterRelease n v :: skipn (S j) (voices s)).
    { rewrite Hvs. rewrite skipn_app, Hlen, Nat.sub_diag. simpl.
      rewrite <- Hlen at 1. now rewrite skipn_all. }
    rewrite IH.
    2:{ rewrite Hvs, length_app, Hlen. simpl. lia. }
    rewrite Hfirst, Hskip. unfold enumerate.
    unfold s'. destruct (isCurrentlyPlayingNote v n) eqn:Hm; simpl;
      rewrite <- !app_assoc; reflexivity.
Qed.

(** X1: a release reaches every voice that is playing the released note:
    each of them gets the released note and one stop callback with the
    tail-off allowed, the callbacks being made from the last voice of the
    pool to the first; the other voices, the counter and the stealing
    switch are left as they were. *)
Theorem noteReleased_reaches_all_matches (finishedNote : Note) (s : MPESynthesiser) :
  voices (noteReleased finishedNote s) = map (afterRelease finishedNote) (voices s)
  /\ callLog (noteReleased finishedNote s)
     = callLog s
       ++ map (fun r : VoiceRef => VoiceCall (fst r) (NoteStopped true))
              (rev (filter (fun r : VoiceRef =>
                              isCurrentlyPlayingNote (snd r) finishedNote)
                           (enumerate (voices s))))
  /\ lastNoteOnCounter (noteReleased finishedNote s) = lastNoteOnCounter s
  /\ shouldStealVoices (noteReleased finishedNote s) = shouldStealVoices s.
Proof.
  unfold noteReleased. rewrite releaseLoop_eq by lia. simpl.
  rewrite firstn_all, skipn_all, app_nil_r. repeat split.
Qed.

End Release.

(** ** The order in which voices are stolen *)

Section StealingOrder.

Context {VC : VoiceClass} {SORT : StdSort VoiceRef}.
Hypothesis std_sort_ok : StdSortContract std_sort.

(** The first hit of a search through the scratch array is a voice of the
    pool, and no hit is older. *)
Lemma find_usable_oldest (P : VoiceRef -> bool) (vs : list Voice) (p : VoicePtr) :
  ptrOf (find P (usable (scanVoices vs))) = Some p ->
  exists w, nth_error vs p = Some w /\ P (p, w) = true
            /\ forall j u, nth_error vs j = Some u -> P (j, u) = true ->
                           noteOnTime w <= noteOnTime u.
Proof.
  destruct (find P _) as [[i w]|] eqn:Hf; simpl; [|discriminate].
  intros [= <-]. destruct (find_some _ _ Hf) as [Hin HP].
  apply usable_In in Hin; [|exact std_sort_ok].
  exists w. split; [now apply enumerate_In|]. split; [exact HP|].
  intros j u Hu HPu.
  assert (Huin : In (j, u) (usable (scanVoices vs))).
  { apply usable_In; [exact std_sort_ok | now apply enumerate_In]. }
  destruct (find_sorted_least notYounger _ _ _ (usable_sorted std_sort_ok vs)
                              Hf _ Huin HPu) as [Heq | Hle].
  - inversion Heq; subst. lia.
  - exact Hle.
Qed.

Lemma find_usable_hit (P : VoiceRef -> bool) (vs : list Voice) (j : VoicePtr)
      (u : Voice) :
  nth_error vs j = Some u -> P (j, u) = true ->
  exists p, ptrOf (find P (usable (scanVoices vs))) = Some p.
Proof.
  intros Hu HP.
  assert (Hin : In (j, u) (usable (scanVoices vs))).
  { apply usable_In; [exact std_sort_ok | now apply enumerate_In]. }
  destruct (find P (usable (scanVoices vs))) as [r|] eqn:Hf.
  - now exists (fst r).
  - exfalso. now apply (find_not_None _ _ _ Hin HP).
Qed.

Lemma find_usable_miss (P : VoiceRef -> bool) (vs : list Voice) :
  (forall j u, nth_error vs j = Some u -> P (j, u) = false) ->
  ptrOf (find P (usable (scanVoices vs))) = None.
Proof.
  intros H. rewrite find_all_false; [reflexivity|].
  intros [j u] Hr. apply usable_In in Hr; [|exact std_sort_ok].
  apply H. now apply enumerate_In.
Qed.

Lemma unprotected_true (lowp topp : option VoicePtr) (r : VoiceRef) :
  unprotected lowp topp r = true <-> lowp <> Some (fst r) /\ topp <> Some (fst r).
Proof. unfold unprotected. now rewrite andb_true_iff, !isNot_true. Qed.

Lemma keyNotDown_true (r : VoiceRef) :
  keyNotDown r = true
  <-> keyState (getCurrentlyPlayingNote (snd r)) <> keyDown
      /\ keyState (getCurrentlyPlayingNote (snd r)) <> keyDownAndSustained.
Proof.
  unfold keyNotDown. rewrite andb_true_iff, !negb_true_iff.
  rewrite <- !not_true_iff_false, !KeyState_eqb_eq. reflexivity.
Qed.

(** A released voice is never one of the protected voices. *)
Lemma released_unprotected (vs : list Voice) (lowp topp : option VoicePtr)
      (i : VoicePtr) (v : Voice) :
  protectedVoices vs = (lowp, topp) ->
  nth_error vs i = Some v -> isPlayingButReleased v = true ->
  unprotected lowp topp (i, v) = true.
Proof.
  intros Hp Hv Hrel. apply protectedVoices_inv in Hp. destruct Hp as [Hl Ht].
  destruct (Protects_scan vs) as (Hlow & Htop & _). simpl in Hlow, Htop.
  apply enumerate_In in Hv.
  apply unprotected_true. simpl. split.
  - subst lowp. destruct (low (scanVoices vs)) as [l|]; simpl; [|discriminate].
    intros [= Heq]. destruct (Hlow l eq_refl) as (Hin & Hun & _).
    assert (l = (i, v)) by (apply (enumerate_fst_inj vs); auto).
    subst l. simpl in Hun. congruence.
  - destruct Ht as [-> | [-> _]]; [discriminate|].
    destruct (top (scanVoices vs)) as [t|]; simpl; [|discriminate].
    intros [= Heq]. destruct (Htop t eq_refl) as (Hin & Hun & _).
    assert (t = (i, v)) by (apply (enumerate_fst_inj vs); auto).
    subst t. simpl in Hun. congruence.
Qed.

(** X2: when no same-pitch voice applies and some voice of the pool is
    released, [findVoiceToSteal] returns a released voice, and no released
    voice of the pool is older than it: released voices go before all
    held ones, whatever their pitch. *)
Theorem released_voice_stolen_first (vs : list Voice) (n : Note) :
  (isValid n = false
   \/ forall v, In v vs -> initialNote (getCurrentlyPlayingNote v) <> initialNote n) ->
  (exists i v, nth_error vs i = Some v /\ isPlayingButReleased v = true) ->
  exists p w,
    findVoiceToSteal vs n = Some p
    /\ nth_error vs p = Some w
    /\ isPlayingButReleased w = true
    /\ forall j u, nth_error vs j = Some u -> isPlayingButReleased u = true ->
                   noteOnTime w <= noteOnTime u.
Proof.
  intros Hpitch (i & v & Hv & Hrel). unfold findVoiceToSteal.
  destruct (protectedVoices vs) as [lowp topp] eqn:Hp.
  rewrite (same_pitch_search_fails std_sort_ok vs n Hpitch). simpl.
  set (P := fun voice : VoiceRef =>
              unprotected lowp topp voice && isPlayingButReleased (snd voice)).
  assert (HP : forall j u, nth_error vs j = Some u -> isPlayingButReleased u = true ->
                           P (j, u) = true).
  { intros j u Hu Hu'. unfold P. simpl.
    now rewrite (released_unprotected vs lowp topp j u Hp Hu Hu'), Hu'. }
  destruct (find_usable_hit P vs i v Hv (HP i v Hv Hrel)) as [p Hfind].
  rewrite Hfind. simpl.
  destruct (find_usable_oldest P vs p Hfind) as (w & Hw & HPw & Hleast).
  exists p, w. split; [reflexivity|]. split; [exact Hw|]. split.
  - unfold P in HPw. apply andb_true_iff in HPw. apply HPw.
  - intros j u Hu Hu'. apply (Hleast j u Hu). now apply HP.
Qed.

(** X3: when no same-pitch voice applies and no voice is released, but
    some unprotected voice has its key up (sustained only), the voice
    returned is an unprotected voice with its key up, and no such voice is
    older than it. *)
Theorem key_up_voice_stolen_next (vs : list Voice) (n : Note)
        (lowp topp : option VoicePtr) :
  protectedVoices vs = (lowp, topp) ->
  (isValid n = false
   \/ forall v, In v vs -> initialNote (getCurrentlyPlayingNote v) <> initialNote n) ->
  (forall v, In v vs -> isPlayingButReleased v = false) ->
  (exists i v, nth_error vs i = Some v
               /\ lowp <> Some i /\ topp <> Some i
               /\ keyState (getCurrentlyPlayingNote v) <> keyDown
               /\ keyState (getCurrentlyPlayingNote v) <> keyDownAndSustained) ->
  exists p w,
    findVoiceToSteal vs n = Some p
    /\ nth_error vs p = Some w
    /\ lowp <> Some p /\ topp <> Some p
    /\ keyState (getCurrentlyPlayingNote w) <> keyDown
    /\ keyState (getCurrentlyPlayingNote w) <> keyDownAndSustained
    /\ forall j u, nth_error vs j = Some u ->
                   lowp <> Some j -> topp <> Some j ->
                   keyState (getCurrentlyPlayingNote u) <> keyDown ->
                   keyState (getCurrentlyPlayingNote u) <> keyDownAndSustained ->
                   noteOnTime w <= noteOnTime u.
Proof.
  intros Hp Hpitch Hnorel (i & v & Hv & Hl & Ht & Hk1 & Hk2).
  unfold findVoiceToSteal. rewrite Hp.
  rewrite (same_pitch_search_fails std_sort_ok vs n Hpitch). simpl.
  rewrite find_usable_miss.
  2:{ intros j u Hu. simpl. rewrite (Hnorel u (nth_error_In _ _ Hu)).
      apply andb_false_r. }
  simpl.
  set (P := fun voice : VoiceRef => unprotected lowp topp voice && keyNotDown voice).
  assert (HP : forall j u, P (j, u) = true
                           <-> (lowp <> Some j /\ topp <> Some j)
                               /\ keyState (getCurrentlyPlayingNote u) <> keyDown
                               /\ keyState (getCurrentlyPlayingNote u)
                                  <> keyDownAndSustained).
  { intros j u. unfold P. now rewrite andb_true_iff, unprotected_true, keyNotDown_true. }
  assert (Hi : P (i, v) = true) by (apply HP; auto).
  destruct (find_usable_hit P vs i v Hv Hi) as [p Hfind].
  rewrite Hfind. simpl.
  destruct (find_usable_oldest P vs p Hfind) as (w & Hw & HPw & Hleast).
  apply HP in HPw. destruct HPw as ((Hwl & Hwt) & Hwk1 & Hwk2).
  exists p, w. repeat (split; [assumption || reflexivity|]).
  intros j u Hu Hjl Hjt Hu1 Hu2. apply (Hleast j u Hu). apply HP. auto.
Qed.

(** X4: when no same-pitch voice applies, no voice is released and every
    unprotected voice has its key down, the voice returned is an
    unprotected voice, and no unprotected voice is older than it. *)
Theorem oldest_unprotected_stolen (vs : list Voice) (n : Note)
        (lowp topp : option VoicePtr) :
  protectedVoices vs = (lowp, topp) ->
  (isValid n = false
   \/ forall v, In v vs -> initialNote (getCurrentlyPlayingNote v) <> initialNote n) ->
  (forall v, In v vs -> isPlayingButReleased v = false) ->
  (forall j u, nth_error vs j = Some u -> lowp <> Some j -> topp <> Some j ->
               keyState (getCurrentlyPlayingNote u) = keyDown
               \/ keyState (getCurrentlyPlayingNote u) = keyDownAndSustained) ->
  (exists i, (i < length vs)%nat /\ lowp <> Some i /\ topp <> Some i) ->
  exists p w,
    findVoiceToSteal vs n = Some p
    /\ nth_error vs p = Some w
    /\ lowp <> Some p /\ topp <> Some p
    /\ forall j u, nth_error vs j = Some u -> lowp <> Some j -> topp <> Some j ->
                   noteOnTime w <= noteOnTime u.
Proof.
  intros Hp Hpitch Hnorel Hdown (i & Hi & Hl & Ht).
  unfold findVoiceToSteal. rewrite Hp.
  rewrite (same_pitch_search_fails std_sort_ok vs n Hpitch). simpl.
  rewrite find_usable_miss.
  2:{ intros j u Hu. simpl. rewrite (Hnorel u (nth_error_In _ _ Hu)).
      apply andb_false_r. }
  rewrite find_usable_miss.
  2:{ intros j u Hu. apply not_true_iff_false. intros H.
      apply andb_true_iff in H. destruct H as [Hun Hkey].
      apply unprotected_true in Hun. apply keyNotDown_true in Hkey.
      simpl in *. destruct (Hdown j u Hu) as [H | H]; tauto. }
  simpl.
  destruct (nth_error vs i) as [v|] eqn:Hv.
  2:{ apply nth_error_None in Hv. lia. }
  assert (Hiv : unprotected lowp topp (i, v) = true) by now apply unprotected_true.
  destruct (find_usable_hit _ vs i v Hv Hiv) as [p Hfind].
  rewrite Hfind. simpl.
  destruct (find_usable_oldest _ vs p Hfind) as (w & Hw & HPw & Hleast).
  apply unprotected_true in HPw. destruct HPw as [Hwl Hwt].
  exists p, w. repeat (split; [assumption || reflexivity|]).
  intros j u Hu Hjl Hjt. apply (Hleast j u Hu). now apply unprotected_true.
Qed.

(** X5: as long as no same-pitch voice applies and the pool holds a voice
    that is not protected, neither [low] nor [top] is returned: the
    lowest and the topmost held note are stolen only when nothing else is
    left. *)
Theorem protected_voices_spared (vs : list Voice) (n : Note)
        (lowp topp : option VoicePtr) :
  protectedVoices vs = (lowp, topp) ->
  (isValid n = false
   \/ forall v, In v vs -> initialNote (getCurrentlyPlayingNote v) <> initialNote n) ->
  (exists i, (i < length vs)%nat /\ lowp <> Some i /\ topp <> Some i) ->
  exists p,
    findVoiceToSteal vs n = Some p
    /\ (p < length vs)%nat /\ lowp <> Some p /\ topp <> Some p.
Proof.
  intros Hp Hpitch (i & Hi & Hl & Ht).
  destruct (nth_error vs i) as [v|] eqn:Hv.
  2:{ apply nth_error_None in Hv. lia. }
  assert (Hiv : unprotected lowp topp (i, v) = true) by now apply unprotected_true.
  destruct (find_usable_hit _ vs i v Hv Hiv) as [q Hq].
  assert (Hfrom : forall (P : VoiceRef -> bool) p,
             (forall r, P r = true -> unprotected lowp topp r = true) ->
             ptrOf (find P (usable (scanVoices vs))) = Some p ->
             (p < length vs)%nat /\ lowp <> Some p /\ topp <> Some p).
  { intros P p HP Hfind.
    destruct (find_usable_oldest P vs p Hfind) as (w & Hw & HPw & _).
    split; [apply nth_error_Some; congruence|].
    apply HP, unprotected_true in HPw. exact HPw. }
  unfold findVoiceToSteal. rewrite Hp.
  rewrite (same_pitch_search_fails std_sort_ok vs n Hpitch). simpl.
  match goal with
  | |- exists p, orElse ?a (orElse ?b (orElse ?c ?d)) = Some p /\ _ =>
      destruct a as [pa|] eqn:Ha; [|destruct b as [pb|] eqn:Hb]
  end; simpl.
  - exists pa. split; [reflexivity|]. apply (Hfrom _ pa) in Ha; [exact Ha|].
    intros r Hr. apply andb_true_iff in Hr. apply Hr.
  - exists pb. split; [reflexivity|]. apply (Hfrom _ pb) in Hb; [exact Hb|].
    intros r Hr. apply andb_true_iff in Hr. apply Hr.
  - rewrite Hq. simpl. exists q. split; [reflexivity|].
    apply (Hfrom _ q) in Hq; [exact Hq | auto].
Qed.

(** X14: the incoming note weighs on the choice through the same-pitch
    search alone: two notes that both find no same-pitch voice (because
    the note is not valid or no voice sounds its pitch) get the same
    voice. *)
Theorem steal_depends_on_pitch_match_only (vs : list Voice) (n m : Note) :
  (isValid n = false
   \/ forall v, In v vs -> initialNote (getCurrentlyPlayingNote v) <> initialNote n) ->
  (isValid m = false
   \/ forall v, In v vs -> initialNote (getCurrentlyPlayingNote v) <> initialNote m) ->
  findVoiceToSteal vs n = findVoiceToSteal vs m.
Proof.
  intros Hn Hm. unfold findVoiceToSteal.
  destruct (protectedVoices vs) as [lowp topp].
  now rewrite (same_pitch_search_fails std_sort_ok vs n Hn),
              (same_pitch_search_fails std_sort_ok vs m Hm).
Qed.

End StealingOrder.

(** ** Which voices are protected *)

Section ProtectedVoices.

Context {VC : VoiceClass} {SORT : StdSort VoiceRef}.

(** X6: [low] is a voice that is not released and holds the lowest note of
    all voices that are not released, [top] is another such voice and
    holds the highest of these notes; nothing is protected exactly when
    every voice of the pool is released. *)
Theorem protected_voices_are_extremes (vs : list Voice)
        (lowp topp : option VoicePtr) :
  protectedVoices vs = (lowp, topp) ->
  (lowp = None <-> Forall (fun v => isPlayingButReleased v = true) vs)
  /\ (forall i, lowp = Some i ->
                exists v, nth_error vs i = Some v
                          /\ isPlayingButReleased v = false
                          /\ forall u, In u vs -> isPlayingButReleased u = false ->
                                       initialNote (getCurrentlyPlayingNote v)
                                       <= initialNote (getCurrentlyPlayingNote u))
  /\ (forall j, topp = Some j ->
                lowp <> Some j
                /\ exists v, nth_error vs j = Some v
                             /\ isPlayingButReleased v = false
                             /\ forall u, In u vs -> isPlayingButReleased u = false ->
                                          initialNote (getCurrentlyPlayingNote u)
                                          <= initialNote (getCurrentlyPlayingNote v)).
Proof.
  intros Hp. apply protectedVoices_inv in Hp. destruct Hp as [Hl Ht].
  destruct (Protects_scan vs) as (Hlow & Htop & Hnone & Hboth).
  simpl in Hlow, Htop, Hnone, Hboth.
  assert (Hpool : forall u, In u vs -> exists k, In (k, u) (enumerate vs)).
  { intros u Hu. apply In_nth_error in Hu. destruct Hu as [k Hk].
    exists k. now apply enumerate_In. }
  split; [|split].
  - subst lowp. split.
    + intros Hnone'. apply Forall_forall. intros u Hu.
      destruct (Hpool u Hu) as [k Hk].
      destruct (low (scanVoices vs)); [discriminate|].
      apply (Hnone eq_refl (k, u) Hk).
    + intros Hall. rewrite Forall_forall in Hall.
      destruct (low (scanVoices vs)) as [[k u]|]; [|reflexivity].
      destruct (Hlow _ eq_refl) as (Hin & Hun & _). simpl in Hun.
      apply enumerate_In, nth_error_In in Hin. rewrite (Hall u Hin) in Hun.
      discriminate.
  - intros i Hi. subst lowp.
    destruct (low (scanVoices vs)) as [[k v]|]; simpl in Hi; [|discriminate].
    inversion Hi; subst k. destruct (Hlow _ eq_refl) as (Hin & Hun & Hmin).
    exists v. split; [now apply enumerate_In|]. split; [exact Hun|].
    intros u Hu Huu. destruct (Hpool u Hu) as [k Hk].
    apply (Hmin (k, u) Hk Huu).
  - intros j Hj. destruct Ht as [Ht | [Ht Hne]]; [congruence|].
    split; [congruence|]. rewrite Hj in Ht.
    destruct (top (scanVoices vs)) as [[k v]|]; simpl in Ht; [|discriminate].
    inversion Ht; subst k. destruct (Htop _ eq_refl) as (Hin & Hun & Hmax).
    exists v. split; [now apply enumerate_In|]. split; [exact Hun|].
    intros u Hu Huu. destruct (Hpool u Hu) as [k Hk].
    apply (Hmax (k, u) Hk Huu).
Qed.

Lemma protectStep_same_pitch_stays (es : list VoiceRef) (l : VoiceRef) :
  (forall e, In e es -> isPlayingButReleased (snd e) = false ->
             noteNumberOf e = noteNumberOf l) ->
  fold_left protectStep es (Some l, Some l) = (Some l, Some l).
Proof.
  induction es as [|e rest IH]; intros H; simpl; [reflexivity|].
  assert (Hstep : protectStep (Some l, Some l) e = (Some l, Some l)).
  { unfold protectStep. destruct (isPlayingButReleased (snd e)) eqn:Hrel; simpl;
      [reflexivity|].
    rewrite (H e (or_introl eq_refl) Hrel).
    now rewrite Z.ltb_irrefl, Z.gtb_ltb, Z.ltb_irrefl. }
  rewrite Hstep. apply IH. intros e' He'. apply H. now right.
Qed.

Lemma protectStep_first_unreleased (vs : list Voice) (base i : nat) (v : Voice) :
  nth_error vs i = Some v ->
  isPlayingButReleased v = false ->
  (forall j u, (j < i)%nat -> nth_error vs j = Some u ->
               isPlayingButReleased u = true) ->
  (forall u, In u vs -> isPlayingButReleased u = false ->
             initialNote (getCurrentlyPlayingNote u)
             = initialNote (getCurrentlyPlayingNote v)) ->
  fold_left protectStep (enumerateFrom base vs) (None, None)
  = (Some ((base + i)%nat, v), Some ((base + i)%nat, v)).
Proof.
  revert base i. induction vs as [|u rest IH]; intros base [|i] Hv Hun Hbefore Hsame;
    simpl in Hv; try discriminate.
  - inversion Hv; subst u. simpl. unfold protectStep at 2. simpl. rewrite Hun. simpl.
    rewrite Nat.add_0_r. apply protectStep_same_pitch_stays.
    intros [k w] Hin Hw. unfold noteNumberOf. simpl in *.
    apply Hsame; [|exact Hw]. right.
    apply enumerateFrom_In in Hin. destruct Hin as [_ Hin].
    now apply nth_error_In in Hin.
  - simpl. unfold protectStep at 2. simpl.
    rewrite (Hbefore 0%nat u (Nat.lt_0_succ i) eq_refl). simpl.
    replace (base + S i)%nat with (S base + i)%nat by lia.
    apply IH; auto.
    + intros j w Hj Hw. apply (Hbefore (S j) w); [lia | exact Hw].
    + intros w Hw. apply Hsame. now right.
Qed.

(** X7: when all the voices that are not released sound one and the same
    pitch, the first of them in pool order is the only protected voice:
    [low] points to it and [top] is cleared. *)
Theorem single_pitch_protects_one_voice (vs : list Voice) (i : VoicePtr) (v : Voice) :
  nth_error vs i = Some v ->
  isPlayingButReleased v = false ->
  (forall j u, (j < i)%nat -> nth_error vs j = Some u ->
               isPlayingButReleased u = true) ->
  (forall u, In u vs -> isPlayingButReleased u = false ->
             initialNote (getCurrentlyPlayingNote u)
             = initialNote (getCurrentlyPlayingNote v)) ->
  protectedVoices vs = (Some i, None).
Proof.
  intros Hv Hun Hbefore Hsame.
  pose proof (scan_protectStep (enumerate vs) (mkScan [] None None)) as Hscan.
  simpl in Hscan. unfold enumerate in Hscan.
  rewrite (protectStep_first_unreleased vs 0 i v Hv Hun Hbefore Hsame) in Hscan.
  simpl in Hscan. injection Hscan as Hl Ht.
  unfold protectedVoices, scanVoices, enumerate. rewrite Hl, Ht. simpl.
  now rewrite Nat.eqb_refl.
Qed.

Hypothesis std_sort_ok : StdSortContract std_sort.

(** When no same-pitch voice applies and every voice is protected, the
    searches find nothing and the last resort decides. *)
Lemma last_resort (vs : list Voice) (n : Note) (lowp topp : option VoicePtr) :
  protectedVoices vs = (lowp, topp) ->
  (isValid n = false
   \/ forall v, In v vs -> initialNote (getCurrentlyPlayingNote v) <> initialNote n) ->
  (forall p, (p < length vs)%nat -> lowp = Some p \/ topp = Some p) ->
  findVoiceToSteal vs n = match topp with
                          | Some t => Some t
                          | None => lowp
                          end.
Proof.
  intros Hp Hpitch Hall. unfold findVoiceToSteal. rewrite Hp.
  rewrite (same_pitch_search_fails std_sort_ok vs n Hpitch). simpl.
  assert (Hprot : forall j u, nth_error vs j = Some u ->
                              unprotected lowp topp (j, u) = false).
  { intros j u Hu. apply not_true_iff_false. intros H.
    apply unprotected_true in H. simpl in H.
    assert (Hj : (j < length vs)%nat) by (apply nth_error_Some; congruence).
    destruct (Hall j Hj); tauto. }
  rewrite !(find_usable_miss std_sort_ok).
  - simpl. destruct topp; reflexivity.
  - exact Hprot.
  - intros j u Hu. simpl. now rewrite (Hprot j u Hu).
  - intros j u Hu. simpl. now rewrite (Hprot j u Hu).
Qed.

(** X8: in a pool of two voices that are not released and hold different
    notes, with no same-pitch voice for the incoming note, the voice with
    the higher note is the one returned, whichever is older: the bass
    note keeps sounding. *)
Theorem duophonic_steals_treble (a b : Voice) (n : Note) :
  isPlayingButReleased a = false ->
  isPlayingButReleased b = false ->
  initialNote (getCurrentlyPlayingNote a) <> initialNote (getCurrentlyPlayingNote b) ->
  (isValid n = false
   \/ (initialNote (getCurrentlyPlayingNote a) <> initialNote n
       /\ initialNote (getCurrentlyPlayingNote b) <> initialNote n)) ->
  findVoiceToSteal [a; b] n
  = Some (if initialNote (getCurrentlyPlayingNote a)
             <? initialNote (getCurrentlyPlayingNote b)
          then 1%nat else 0%nat).
Proof.
  intros Ha Hb Hne Hpitch.
  pose proof (scan_protectStep (enumerate [a; b]) (mkScan [] None None)) as Hscan.
  simpl in Hscan. unfold protectStep in Hscan. simpl in Hscan.
  rewrite Ha, Hb in Hscan. simpl in Hscan. unfold noteNumberOf in Hscan.
  simpl in Hscan. rewrite Z.gtb_ltb in Hscan.
  assert (Hpitch' : isValid n = false
                    \/ forall v, In v [a; b] ->
                                 initialNote (getCurrentlyPlayingNote v) <> initialNote n).
  { destruct Hpitch as [H | [H1 H2]]; [now left | right].
    intros v [<- | [<- | []]]; assumption. }
  destruct (initialNote (getCurrentlyPlayingNote a)
            <? initialNote (getCurrentlyPlayingNote b)) eqn:Hab.
  - assert (Hba : (initialNote (getCurrentlyPlayingNote b)
                   <? initialNote (getCurrentlyPlayingNote a)) = false)
      by (apply Z.ltb_lt in Hab; apply Z.ltb_ge; lia).
    rewrite Hba in Hscan. injection Hscan as Hl Ht.
    rewrite (last_resort [a; b] n (Some 0%nat) (Some 1%nat)); auto.
    + unfold protectedVoices, scanVoices. simpl. rewrite Hl, Ht. reflexivity.
    + intros [|[|p]] Hp; simpl in Hp; auto; lia.
  - assert (Hba : (initialNote (getCurrentlyPlayingNote b)
                   <? initialNote (getCurrentlyPlayingNote a)) = true)
      by (apply Z.ltb_ge in Hab; apply Z.ltb_lt; lia).
    rewrite Hba in Hscan. injection Hscan as Hl Ht.
    rewrite (last_resort [a; b] n (Some 1%nat) (Some 0%nat)); auto.
    + unfold protectedVoices, scanVoices. simpl. rewrite Hl, Ht. reflexivity.
    + intros [|[|p]] Hp; simpl in Hp; auto; lia.
Qed.

End ProtectedVoices.

(** ** Starting notes, stamps and pool size *)

Lemma updateAt_preserves_length {A : Type} (f : A -> A) (l : list A) (i : nat) :
  length (updateAt i f l) = length l.
Proof.
  revert i. induction l as [|x rest IH]; intros [|i]; simpl; auto.
Qed.

Lemma updateAt_elsewhere {A : Type} (f : A -> A) (l : list A) (i j : nat) :
  i <> j -> nth_error (updateAt i f l) j = nth_error l j.
Proof.
  revert i j. induction l as [|y rest IH]; intros [|i] [|j] H; simpl; auto.
  congruence.
Qed.

Section Starting.

Context {VC : VoiceClass} {SORT : StdSort VoiceRef}.

Lemma removeAt_idle (vs : list Voice) (i : nat) (v : Voice) :
  nth_error vs i = Some v -> isActive v = false ->
  filter isActive (removeAt i vs) = filter isActive vs
  /\ idleCount vs = S (idleCount (removeAt i vs)).
Proof.
  unfold idleCount.
  revert i. induction vs as [|u rest IH]; intros [|i]; simpl; try discriminate.
  - intros [= ->] Hidle. rewrite Hidle. simpl. now split.
  - intros Hv Hidle. destruct (IH i Hv Hidle) as [H1 H2].
    destruct (isActive u); simpl; rewrite H1, H2; now split.
Qed.

Lemma idleCount_pos (vs : list Voice) :
  (0 < idleCount vs)%nat -> exists v, In v vs /\ isActive v = false.
Proof.
  unfold idleCount. intros H.
  destruct (filter (fun v => negb (isActive v)) vs) as [|v rest] eqn:Hf;
    [simpl in H; lia|].
  assert (Hin : In v (filter (fun v => negb (isActive v)) vs))
    by (rewrite Hf; now left).
  apply filter_In in Hin. destruct Hin as [Hin Hidle].
  exists v. split; [exact Hin | now apply negb_true_iff].
Qed.

Lemma reduceLoop_spares_active (fuel : nat) (newNumVoices : Z) (s : MPESynthesiser) :
  (length (voices s) <= fuel)%nat ->
  Z.of_nat (length (voices s)) - newNumVoices <= Z.of_nat (idleCount (voices s)) ->
  exists s' trace,
    reduceLoop fuel newNumVoices s = Some (s', trace)
    /\ filter isActive (voices s') = filter isActive (voices s)
    /\ Z.of_nat (length (voices s'))
       = Z.min (Z.of_nat (length (voices s))) newNumVoices
    /\ callLog s' = callLog s
    /\ lastNoteOnCounter s' = lastNoteOnCounter s.
Proof.
  revert s. induction fuel as [|fuel IH]; intros s Hfuel Hidle.
  - simpl. destruct (Z.gtb_spec (Z.of_nat (length (voices s))) newNumVoices).
    + unfold idleCount in Hidle.
      pose proof (filter_length_le (fun v => negb (isActive v)) (voices s)). lia.
    + exists s, []. repeat split. lia.
  - simpl. destruct (Z.gtb_spec (Z.of_nat (length (voices s))) newNumVoices).
    + destruct (idleCount_pos (voices s)) as (v & Hv & Hv'); [lia|].
      destruct (exists_idle_firstIdle (voices s)) as [i Hi]; [now exists v|].
      rewrite (findFreeVoice_idle s defaultNote true i Hi).
      destruct Hi as [(w & Hw & Hw') _].
      destruct (removeAt_idle (voices s) i w Hw Hw') as [Hkeep Hcount].
      assert (Hin : (i < length (voices s))%nat)
        by (apply nth_error_Some; congruence).
      assert (Hlen : length (removeAt i (voices s)) = pred (length (voices s)))
        by now apply removeAt_length.
      destruct (IH (set_voices (removeAt i (voices s)) s))
        as (s' & tr & Hrun & Hact & Hsize & Hlog & Hcnt).
      { cbn [voices set_voices]. lia. }
      { cbn [voices set_voices]. lia. }
      rewrite Hrun. simpl. exists s', (RemovedObject i :: tr).
      split; [reflexivity|].
      cbn [voices set_voices callLog lastNoteOnCounter] in *.
      split; [congruence|]. split; [lia|]. now split.
    + exists s, []. repeat split. lia.
Qed.

(** X13: while the pool holds at least as many idle voices as
    [reduceNumVoices] has to remove, only idle voices are removed: every
    active voice is still in the pool afterwards, in the same order.  No
    callback is made and the counter is left alone. *)
Theorem reduceNumVoices_spares_active (newNumVoices : Z) (s : MPESynthesiser) :
  Z.of_nat (length (voices s)) - newNumVoices <= Z.of_nat (idleCount (voices s)) ->
  exists s' trace,
    reduceNumVoices newNumVoices s = Some (s', trace)
    /\ filter isActive (voices s') = filter isActive (voices s)
    /\ Z.of_nat (length (voices s'))
       = Z.min (Z.of_nat (length (voices s))) newNumVoices
    /\ callLog s' = callLog s
    /\ lastNoteOnCounter s' = lastNoteOnCounter s.
Proof. intros H. now apply reduceLoop_spares_active. Qed.

(** X12: a control change, a release and turning all voices off leave
    the [noteOnTime] of every voice and the counter as they were: only a
    note start changes the age by which voices are stolen. *)
Theorem age_changes_only_on_start (h : VoiceHook) (allowTailOff : bool) (n : Note)
        (s : MPESynthesiser) :
  (map noteOnTime (voices (noteChanged h n s)) = map noteOnTime (voices s)
   /\ lastNoteOnCounter (noteChanged h n s) = lastNoteOnCounter s)
  /\ (map noteOnTime (voices (noteReleased n s)) = map noteOnTime (voices s)
      /\ lastNoteOnCounter (noteReleased n s) = lastNoteOnCounter s)
  /\ (map noteOnTime (voices (turnOffAllVoices allowTailOff s))
      = map noteOnTime (voices s)
      /\ lastNoteOnCounter (turnOffAllVoices allowTailOff s) = lastNoteOnCounter s).
Proof.
  split; [|split].
  - rewrite noteChanged_eq. simpl. split; [|reflexivity].
    rewrite map_map. apply map_ext. intros v.
    destruct (isCurrentlyPlayingNote v n); [|reflexivity].
    now rewrite runHook_noteOnTime.
  - unfold noteReleased. rewrite releaseLoop_eq by lia. simpl.
    rewrite firstn_all, skipn_all, app_nil_r. split; [|reflexivity].
    rewrite map_map. apply map_ext. intros v. unfold afterRelease.
    destruct (isCurrentlyPlayingNote v n); [|reflexivity].
    now rewrite runHook_noteOnTime.
  - rewrite turnOffAllVoices_eq. simpl. split; [|reflexivity].
    rewrite map_map. apply map_ext. intros v. now rewrite runHook_noteOnTime.
Qed.

Hypothesis std_sort_ok : StdSortContract std_sort.

(** X9: a note start that obtains a voice writes to that voice alone: the
    voice gets the note and the current counter value and its start
    callback is the only call made, also when the voice was stolen (it is
    not told to stop first); every other voice and the size of the pool
    stay as they were. *)
Theorem noteAdded_touches_one_voice (n : Note) (s : MPESynthesiser) (i : VoicePtr) :
  findFreeVoice s n (shouldStealVoices s) = Some i ->
  exists v,
    nth_error (voices s) i = Some v
    /\ nth_error (voices (noteAdded n s)) i
       = Some (runHook NoteStarted (mkVoice n (lastNoteOnCounter s) (derived v)))
    /\ (forall j, j <> i ->
                  nth_error (voices (noteAdded n s)) j = nth_error (voices s) j)
    /\ length (voices (noteAdded n s)) = length (voices s)
    /\ callLog (noteAdded n s) = callLog s ++ [VoiceCall i NoteStarted]
    /\ shouldStealVoices (noteAdded n s) = shouldStealVoices s.
Proof.
  intros Hfree. pose proof (findFreeVoice_in_pool std_sort_ok s n _ i Hfree) as Hi.
  destruct (nth_error (voices s) i) as [v|] eqn:Hv.
  2:{ apply nth_error_None in Hv. lia. }
  exists v. unfold noteAdded. rewrite Hfree. simpl.
  split; [reflexivity|].
  split; [rewrite (updateAt_nth_same _ _ _ _ Hv); reflexivity|].
  split; [intros j Hj; apply updateAt_elsewhere; congruence|].
  split; [apply updateAt_preserves_length|]. now split.
Qed.

(** X10: with voice stealing switched on, a note is dropped only when the
    pool is empty; in any other pool the note starts a voice. *)
Theorem stealing_drops_only_on_empty_pool (n : Note) (s : MPESynthesiser) :
  shouldStealVoices s = true ->
  (voices s = [] -> noteAdded n s = s)
  /\ (voices s <> [] ->
      exists i, (i < length (voices s))%nat
                /\ noteAdded n s = startVoice i n s).
Proof.
  intros Hsteal. unfold noteAdded. rewrite Hsteal. split.
  - intros Hempty. unfold findFreeVoice, findVoiceToSteal, protectedVoices, scanVoices.
    rewrite Hempty. simpl. destruct (isValid n); reflexivity.
  - intros Hne. destruct (findFreeVoice_total std_sort_ok s n Hne) as (i & Hi & Hlt).
    exists i. rewrite Hi. now split.
Qed.

Lemma StampsFresh_noteAdded (c0 : Z) (n : Note) (s : MPESynthesiser) :
  0 <= c0 -> lastNoteOnCounter s + 1 < uint32_modulus ->
  StampsFresh c0 s -> StampsFresh c0 (noteAdded n s).
Proof.
  intros Hc0 Hroom (Hle & Hbound & Hdistinct).
  destruct (findFreeVoice s n (shouldStealVoices s)) as [i|] eqn:Hfree.
  2:{ unfold noteAdded. rewrite Hfree. exact (conj Hle (conj Hbound Hdistinct)). }
  destruct (noteAdded_stamp std_sort_ok s n i Hfree) as [Hstamp Hnext].
  assert (Hcounter : lastNoteOnCounter (noteAdded n s) = lastNoteOnCounter s + 1).
  { rewrite Hnext. unfold uint32. apply Z.mod_small. lia. }
  assert (Hother : forall j, j <> i ->
              nth_error (voices (noteAdded n s)) j = nth_error (voices s) j).
  { intros j Hj. unfold noteAdded. rewrite Hfree. simpl.
    apply updateAt_elsewhere. congruence. }
  assert (Hlog : forall j, wasStarted (noteAdded n s) j -> j <> i -> wasStarted s j).
  { intros j Hj Hne. unfold wasStarted, noteAdded in Hj. rewrite Hfree in Hj.
    simpl in Hj. apply in_app_or in Hj. destruct Hj as [Hj | [Hj | []]]; [exact Hj|].
    congruence. }
  assert (Hmine : forall v, nth_error (voices (noteAdded n s)) i = Some v ->
                            noteOnTime v = lastNoteOnCounter s).
  { intros v Hv. rewrite Hv in Hstamp. simpl in Hstamp. congruence. }
  assert (Hold : forall j v, wasStarted (noteAdded n s) j -> j <> i ->
                             nth_error (voices (noteAdded n s)) j = Some v ->
                             c0 <= noteOnTime v < lastNoteOnCounter s).
  { intros j v Hj Hne Hv. rewrite (Hother j Hne) in Hv.
    apply (Hbound j v); [now apply Hlog | exact Hv]. }
  split; [lia|]. split.
  - intros j v Hj Hv. rewrite Hcounter. destruct (Nat.eq_dec j i) as [-> | Hne].
    + rewrite (Hmine v Hv). lia.
    + pose proof (Hold j v Hj Hne Hv). lia.
  - intros j k vj vk Hj Hk Hvj Hvk Heq.
    destruct (Nat.eq_dec j i) as [-> | Hnj], (Nat.eq_dec k i) as [-> | Hnk].
    + reflexivity.
    + rewrite (Hmine vj Hvj) in Heq. pose proof (Hold k vk Hk Hnk Hvk). lia.
    + rewrite (Hmine vk Hvk) in Heq. pose proof (Hold j vj Hj Hnj Hvj). lia.
    + rewrite (Hother j Hnj) in Hvj. rewrite (Hother k Hnk) in Hvk.
      apply (Hdistinct j k vj vk); auto.
Qed.

Lemma noteAdded_counter_step (n : Note) (s : MPESynthesiser) :
  0 <= lastNoteOnCounter s -> lastNoteOnCounter s + 1 < uint32_modulus ->
  lastNoteOnCounter s <= lastNoteOnCounter (noteAdded n s) <= lastNoteOnCounter s + 1.
Proof.
  intros Hpos Hroom. unfold noteAdded.
  destruct (findFreeVoice s n (shouldStealVoices s)); simpl; [|lia].
  unfold uint32. rewrite Z.mod_small; lia.
Qed.

Lemma StampsFresh_noteAddedAll (c0 : Z) (notes : list Note) (s : MPESynthesiser) :
  0 <= c0 ->
  lastNoteOnCounter s + Z.of_nat (length notes) < uint32_modulus ->
  StampsFresh c0 s -> StampsFresh c0 (noteAddedAll notes s).
Proof.
  intros Hc0. revert s. induction notes as [|n rest IH]; intros s Hroom Hinv;
    simpl; [exact Hinv|].
  simpl length in Hroom. rewrite Nat2Z.inj_succ in Hroom.
  assert (Hle : c0 <= lastNoteOnCounter s) by apply Hinv.
  apply IH.
  - pose proof (noteAdded_counter_step n s). lia.
  - apply StampsFresh_noteAdded; [exact Hc0 | lia | exact Hinv].
Qed.

(** X11: starting from a synthesiser none of whose voices was started
    yet, and as long as the counter does not wrap around, any sequence of
    note-starts (stealing or not) leaves the started voices with pairwise
    distinct [noteOnTime] values; once every voice of the pool was
    started, no two voices of the pool share their [noteOnTime]. *)
Theorem started_voices_have_distinct_stamps (notes : list Note) (s : MPESynthesiser) :
  (forall i, ~ wasStarted s i) ->
  0 <= lastNoteOnCounter s ->
  lastNoteOnCounter s + Z.of_nat (length notes) < uint32_modulus ->
  let s' := noteAddedAll notes s in
  (forall i j vi vj, wasStarted s' i -> wasStarted s' j ->
                     nth_error (voices s') i = Some vi ->
                     nth_error (voices s') j = Some vj ->
                     noteOnTime vi = noteOnTime vj -> i = j)
  /\ ((forall i, (i < length (voices s'))%nat -> wasStarted s' i) ->
      NoDup (map noteOnTime (voices s'))).
Proof.
  intros Hfresh Hpos Hroom s'.
  assert (Hinv : StampsFresh (lastNoteOnCounter s) s').
  { apply StampsFresh_noteAddedAll; [exact Hpos | exact Hroom|].
    split; [lia|]. split; intros; exfalso; eapply Hfresh; eassumption. }
  destruct Hinv as (_ & _ & Hdistinct). split; [exact Hdistinct|].
  intros Hall. apply NoDup_nth_error. intros i j Hi Heq.
  rewrite length_map in Hi. rewrite !nth_error_map in Heq.
  destruct (nth_error (voices s') i) as [vi|] eqn:Hvi.
  2:{ apply nth_error_None in Hvi. lia. }
  destruct (nth_error (voices s') j) as [vj|] eqn:Hvj; [|discriminate].
  simpl in Heq. inversion Heq.
  apply (Hdistinct i j vi vj); auto.
  apply Hall. apply nth_error_Some. congruence.
Qed.

End Starting.

(** * The further properties at work on the model voice class *)

Lemma released_voice_stolen_first_witness :
  exists p w,
    @findVoiceToSteal Model.fadingVoice Model.sorter Model.doubled Model.noNote = Some p
    /\ nth_error Model.doubled p = Some w
    /\ @isPlayingButReleased Model.fadingVoice w = true
    /\ forall j u, nth_error Model.doubled j = Some u ->
                   @isPlayingButReleased Model.fadingVoice u = true ->
                   noteOnTime w <= noteOnTime u.
Proof.
  apply (@released_voice_stolen_first Model.fadingVoice Model.sorter
                                      insertionSort_contract Model.doubled Model.noNote).
  - left. reflexivity.
  - exists 2%nat, (Model.playing 61 off 1). split; reflexivity.
Defined.

Lemma key_up_voice_stolen_next_witness :
  exists p w,
    @findVoiceToSteal Model.fadingVoice Model.sorter Model.pedalled Model.noNote = Some p
    /\ nth_error Model.pedalled p = Some w
    /\ Some 0%nat <> Some p /\ Some 2%nat <> Some p
    /\ keyState (@getCurrentlyPlayingNote Model.fadingVoice w) <> keyDown
    /\ keyState (@getCurrentlyPlayingNote Model.fadingVoice w) <> keyDownAndSustained
    /\ forall j u, nth_error Model.pedalled j = Some u ->
                   Some 0%nat <> Some j -> Some 2%nat <> Some j ->
                   keyState (@getCurrentlyPlayingNote Model.fadingVoice u) <> keyDown ->
                   keyState (@getCurrentlyPlayingNote Model.fadingVoice u)
                   <> keyDownAndSustained ->
                   noteOnTime w <= noteOnTime u.
Proof.
  apply (@key_up_voice_stolen_next Model.fadingVoice Model.sorter
                                   insertionSort_contract Model.pedalled Model.noNote
                                   (Some 0%nat) (Some 2%nat)).
  - reflexivity.
  - left. reflexivity.
  - intros v [<- | [<- | [<- | [<- | []]]]]; reflexivity.
  - exists 1%nat, (Model.playing 60 sustained 2).
    repeat split; discriminate.
Defined.

Lemma oldest_unprotected_stolen_witness :
  exists p w,
    @findVoiceToSteal Model.fadingVoice Model.sorter Model.chord Model.noNote = Some p
    /\ nth_error Model.chord p = Some w
    /\ Some 0%nat <> Some p /\ Some 2%nat <> Some p
    /\ forall j u, nth_error Model.chord j = Some u ->
                   Some 0%nat <> Some j -> Some 2%nat <> Some j ->
                   noteOnTime w <= noteOnTime u.
Proof.
  apply (@oldest_unprotected_stolen Model.fadingVoice Model.sorter
                                    insertionSort_contract Model.chord Model.noNote
                                    (Some 0%nat) (Some 2%nat)).
  - reflexivity.
  - left. reflexivity.
  - intros v [<- | [<- | [<- | []]]]; reflexivity.
  - intros j u Hu _ _. left.
    apply nth_error_In in Hu. destruct Hu as [<- | [<- | [<- | []]]]; reflexivity.
  - exists 1%nat. simpl. repeat split; [lia | discriminate | discriminate].
Defined.

Lemma protected_voices_spared_witness :
  exists p,
    @findVoiceToSteal Model.fadingVoice Model.sorter Model.chord Model.noNote = Some p
    /\ (p < length Model.chord)%nat /\ Some 0%nat <> Some p /\ Some 2%nat <> Some p.
Proof.
  apply (@protected_voices_spared Model.fadingVoice Model.sorter
                                  insertionSort_contract Model.chord Model.noNote
                                  (Some 0%nat) (Some 2%nat)).
  - reflexivity.
  - left. reflexivity.
  - exists 1%nat. simpl. repeat split; [lia | discriminate | discriminate].
Defined.

Lemma steal_depends_on_pitch_match_only_witness :
  @findVoiceToSteal Model.fadingVoice Model.sorter Model.chord Model.noNote
  = @findVoiceToSteal Model.fadingVoice Model.sorter Model.chord (Model.note 61 keyDown).
Proof.
  apply (@steal_depends_on_pitch_match_only Model.fadingVoice Model.sorter
                                            insertionSort_contract Model.chord).
  - left. reflexivity.
  - right. intros v [<- | [<- | [<- | []]]]; discriminate.
Defined.

Lemma protected_voices_are_extremes_witness :
  exists v, nth_error Model.chord 0 = Some v
            /\ @isPlayingButReleased Model.fadingVoice v = false
            /\ forall u, In u Model.chord ->
                         @isPlayingButReleased Model.fadingVoice u = false ->
                         initialNote (@getCurrentlyPlayingNote Model.fadingVoice v)
                         <= initialNote (@getCurrentlyPlayingNote Model.fadingVoice u).
Proof.
  apply (@protected_voices_are_extremes Model.fadingVoice Model.sorter Model.chord
                                        (Some 0%nat) (Some 2%nat)).
  - reflexivity.
  - reflexivity.
Defined.

Lemma single_pitch_protects_one_voice_witness :
  @protectedVoices Model.fadingVoice Model.sorter Model.doubled = (Some 0%nat, None).
Proof.
  apply (@single_pitch_protects_one_voice Model.fadingVoice Model.sorter Model.doubled
                                          0%nat (Model.playing 60 keyDown 5)).
  - reflexivity.
  - reflexivity.
  - intros j u Hj. lia.
  - intros u [<- | [<- | [<- | []]]]; [reflexivity | reflexivity | discriminate].
Defined.

Lemma duophonic_steals_treble_witness :
  @findVoiceToSteal Model.fadingVoice Model.sorter
                    [Model.playing 80 keyDown 1; Model.playing 40 keyDown 2]
                    Model.noNote
  = Some 0%nat.
Proof.
  apply (@duophonic_steals_treble Model.fadingVoice Model.sorter insertionSort_contract
                                  (Model.playing 80 keyDown 1)
                                  (Model.playing 40 keyDown 2) Model.noNote).
  - reflexivity.
  - reflexivity.
  - discriminate.
  - left. reflexivity.
Defined.

Lemma reduceNumVoices_spares_active_witness :
  exists s' trace,
    @reduceNumVoices Model.fadingVoice Model.sorter 1
                     (Model.synth [Model.idle; Model.playing 60 keyDown 7; Model.idle]
                                  8 true)
    = Some (s', trace)
    /\ filter (@isActive Model.fadingVoice) (voices s') = [Model.playing 60 keyDown 7]
    /\ Z.of_nat (length (voices s')) = 1
    /\ callLog s' = []
    /\ lastNoteOnCounter s' = 8.
Proof.
  apply (@reduceNumVoices_spares_active
           Model.fadingVoice Model.sorter 1
           (Model.synth [Model.idle; Model.playing 60 keyDown 7; Model.idle] 8 true)).
  vm_compute. discriminate.
Defined.

Lemma noteAdded_touches_one_voice_witness :
  exists v,
    nth_error [Model.playing 60 keyDown 7; Model.idle] 1 = Some v
    /\ nth_error (voices (@noteAdded Model.fadingVoice Model.sorter
                            (Model.note 64 keyDown)
                            (Model.synth [Model.playing 60 keyDown 7; Model.idle]
                                         8 false))) 1
       = Some (@runHook Model.fadingVoice NoteStarted
                        (mkVoice (Model.note 64 keyDown) 8 (derived v)))
    /\ (forall j, j <> 1%nat ->
                  nth_error (voices (@noteAdded Model.fadingVoice Model.sorter
                                       (Model.note 64 keyDown)
                                       (Model.synth
                                          [Model.playing 60 keyDown 7; Model.idle]
                                          8 false))) j
                  = nth_error [Model.playing 60 keyDown 7; Model.idle] j)
    /\ length (voices (@noteAdded Model.fadingVoice Model.sorter
                         (Model.note 64 keyDown)
                         (Model.synth [Model.playing 60 keyDown 7; Model.idle]
                                      8 false))) = 2%nat
    /\ callLog (@noteAdded Model.fadingVoice Model.sorter
                  (Model.note 64 keyDown)
                  (Model.synth [Model.playing 60 keyDown 7; Model.idle] 8 false))
       = [VoiceCall 1 NoteStarted]
    /\ shouldStealVoices (@noteAdded Model.fadingVoice Model.sorter
                            (Model.note 64 keyDown)
                            (Model.synth [Model.playing 60 keyDown 7; Model.idle]
                                         8 false)) = false.
Proof.
  apply (@noteAdded_touches_one_voice
           Model.fadingVoice Model.sorter insertionSort_contract
           (Model.note 64 keyDown)
           (Model.synth [Model.playing 60 keyDown 7; Model.idle] 8 false) 1%nat).
  reflexivity.
Defined.

Lemma stealing_drops_only_on_empty_pool_witness :
  exists i, (i < 3)%nat
            /\ @noteAdded Model.fadingVoice Model.sorter (Model.note 64 keyDown)
                          (Model.synth Model.chord 4 true)
               = @startVoice Model.fadingVoice i (Model.note 64 keyDown)
                             (Model.synth Model.chord 4 true).
Proof.
  apply (@stealing_drops_only_on_empty_pool
           Model.fadingVoice Model.sorter insertionSort_contract
           (Model.note 64 keyDown) (Model.synth Model.chord 4 true)).
  - reflexivity.
  - discriminate.
Defined.

Lemma started_voices_have_distinct_stamps_witness :
  NoDup (map noteOnTime
             (voices (@noteAddedAll Model.fadingVoice Model.sorter
                        [Model.note 60 keyDown; Model.note 64 keyDown;
                         Model.note 67 keyDown]
                        (Model.synth [Model.idle; Model.idle] 7 true)))).
Proof.
  apply (@started_voices_have_distinct_stamps
           Model.fadingVoice Model.sorter insertionSort_contract
           [Model.note 60 keyDown; Model.note 64 keyDown; Model.note 67 keyDown]
           (Model.synth [Model.idle; Model.idle] 7 true)).
  - intros i [].
  - simpl. lia.
  - vm_compute. reflexivity.
  - intros [|[|i]] Hi; vm_compute in Hi |- *; auto; lia.
Defined.
